(** * Hackpad firmware: LED matrix controller (Programm.py)

    A shallow embedding of [Hackpad's Firmware/Programm.py]: nine switches
    toggling nine SK6812 pixels, one rotary encoder driving the strip
    brightness and one driving the host audio volume.

    The module globals of the script are the fields of [state]; every
    function of the script is a computation in the monad [M], which threads
    the state, raises Python exceptions and records the calls made to the
    external collaborators (NeoPixel strip, audio endpoint, stdout) in a
    trace.  Floats are IEEE binary64 ([PrimFloat]), as in CPython. *)

From Stdlib Require Import ZArith Bool Lia Floats.
From stdpp Require Import base list.

#[local] Set Warnings "-inexact-float".
#[local] Open Scope Z_scope.

(** ** Python arithmetic *)

Module Py.

(** Exceptions the script can meet.  [KeyboardInterrupt] derives from
    [BaseException] only; the others derive from [Exception]. *)
Inductive exn : Set :=
| KeyboardInterrupt
| OverflowError
| ValueError
| IndexError
| AudioError. (* what pycaw / comtypes raise *)

Definition is_Exception (e : exn) : bool :=
  match e with KeyboardInterrupt => false | _ => true end.

(** [float(n)] for an [int]: nearest binary64, ties to even;
    [OverflowError] when the rounded value is not finite. *)
Definition float_of_int_raw (n : Z) : float :=
  SF2Prim (binary_normalize prec emax n 0 false).

Definition float_of_int (n : Z) : exn + float :=
  let f := float_of_int_raw n in
  if is_infinity f then inl OverflowError else inr f.

(** [int(x)] for a [float]: truncation toward zero; [ValueError] on NaN,
    [OverflowError] on an infinity. *)
Definition int_of_float (x : float) : exn + Z :=
  match Prim2SF x with
  | S754_zero _ => inr 0
  | S754_infinity _ => inl OverflowError
  | S754_nan => inl ValueError
  | S754_finite sg m e =>
      let v := if 0 <=? e then Z.pos m * 2 ^ e else Z.pos m / 2 ^ (- e) in
      inr (if sg then - v else v)
  end.

(** The builtins [min(a, b)] and [max(a, b)] on floats: the first
    argument is kept unless the second compares strictly better. *)
Definition min (a b : float) : float := if (b <? a)%float then b else a.
Definition max (a b : float) : float := if (a <? b)%float then b else a.

(** [a > b] on floats. *)
Definition gt (a b : float) : bool := (b <? a)%float.

(** [int * float], [float * int], [int / float]: the int operand is
    converted first. *)
Definition float_mul_int (x : float) (n : Z) : exn + float :=
  match float_of_int n with
  | inl e => inl e
  | inr f => inr (x * f)%float
  end.

Definition int_mul_float (n : Z) (x : float) : exn + float :=
  match float_of_int n with
  | inl e => inl e
  | inr f => inr (f * x)%float
  end.

Definition int_div_float (n : Z) (x : float) : exn + float :=
  match float_of_int n with
  | inl e => inl e
  | inr f => inr (f / x)%float
  end.

(** Subscript of a sequence of length [len]: negative subscripts count
    from the end, anything else out of range raises [IndexError]. *)
Definition index (len : nat) (i : Z) : exn + nat :=
  if (0 <=? i) && (i <? Z.of_nat len) then inr (Z.to_nat i)
  else if (- Z.of_nat len <=? i) && (i <? 0) then inr (Z.to_nat (i + Z.of_nat len))
  else inl IndexError.

(** [l[i]] and [l[i] = x] *)
Definition getitem {A} (l : list A) (i : Z) : exn + A :=
  match index (length l) i with
  | inl e => inl e
  | inr n => match l !! n with Some x => inr x | None => inl IndexError end
  end.

Definition setitem {A} (l : list A) (i : Z) (x : A) : exn + list A :=
  match index (length l) i with
  | inl e => inl e
  | inr n => inr (<[n:=x]> l)
  end.

End Py.

Import Py.

(** ** Configuration constants (lines 15-52) *)

Definition rgb : Set := (Z * Z * Z)%type.

Definition NUM_LEDS : nat := 9.
Definition SWITCH_PINS : list Z := [5; 6; 13; 19; 26; 12; 16; 20; 21].
Definition MAX_STEPS : Z := 100.

Definition black : rgb := (0, 0, 0).

Definition led_colors : list rgb :=
  [ (255, 0, 0); (0, 255, 0); (0, 0, 255);
    (255, 255, 0); (0, 255, 255); (255, 0, 255);
    (255, 165, 0); (128, 0, 128); (255, 255, 255) ].

Definition initial_brightness : float := 0.5%float.
Definition initial_volume : Z := 50.

(** Sensitivities and thresholds of the two integrators (lines 79-92). *)
Definition brightness_step : float := 0.02%float.
Definition brightness_threshold : float := 0.01%float.
Definition volume_step : Z := 2.
Definition volume_threshold : Z := 1.

(** ** Program state *)

(** [lambda idx=i: toggle_led(idx)] (line 112): the loop index is captured
    as the default value of [idx] when the lambda is created. *)
Inductive closure : Set :=
| ToggleLambda (idx : Z).

(** A gpiozero [Button]: its pin and its [when_pressed] callback. *)
Record switch : Set := mkSwitch {
  pin : Z;
  when_pressed : option closure
}.

(** Lines printed on standard output, by content rather than by text. *)
Inductive message : Set :=
| MsgAudioInitialized
| MsgAudioNotAvailable
| MsgErrorSettingVolume
| MsgBrightness (percent : Z)
| MsgVolume (percent : Z)
| MsgLedOn (number : Z) (color : rgb)
| MsgLedOff (number : Z)
| MsgBanner (line : nat)
| MsgShuttingDown
| MsgGoodbye.

(** Calls that leave the script, in the order they are made. *)
Inductive event : Set :=
| EvFill (c : rgb)                          (* pixels.fill(c) *)
| EvSetPixel (i : nat) (c : rgb)            (* pixels[i] = c *)
| EvSetBrightness (b : float)               (* pixels.brightness = b *)
| EvShow (frame : list rgb) (b : float)     (* pixels.show() *)
| EvAudioProbe                              (* GetSpeakers / Activate *)
| EvSinkSet (scalar : float)                (* SetMasterVolumeLevelScalar *)
| EvSleep                                   (* time.sleep(0.01) *)
| EvPrint (m : message).

Record state : Type := mkState {
  (* module globals *)
  brightness : float;
  volume : Z;
  led_states : list bool;
  audio_available : bool;
  switches : list switch;
  (* the NeoPixel object: pixel buffer and brightness scalar *)
  pixels : list rgb;
  pixels_brightness : float;
  (* the two RotaryEncoder objects: their [steps] counters *)
  encoder_brightness : Z;
  encoder_volume : Z;
  (* environment *)
  audio_device : bool;        (* can the speakers endpoint be opened *)
  sink_faults : list bool;    (* does the n-th volume call raise *)
  sigint : option nat;        (* statements left before the interrupt *)
  trace : list event
}.

Definition set_brightness v s :=
  mkState v (volume s) (led_states s) (audio_available s) (switches s)
    (pixels s) (pixels_brightness s) (encoder_brightness s) (encoder_volume s)
    (audio_device s) (sink_faults s) (sigint s) (trace s).
Definition set_volume v s :=
  mkState (brightness s) v (led_states s) (audio_available s) (switches s)
    (pixels s) (pixels_brightness s) (encoder_brightness s) (encoder_volume s)
    (audio_device s) (sink_faults s) (sigint s) (trace s).
Definition set_led_states v s :=
  mkState (brightness s) (volume s) v (audio_available s) (switches s)
    (pixels s) (pixels_brightness s) (encoder_brightness s) (encoder_volume s)
    (audio_device s) (sink_faults s) (sigint s) (trace s).
Definition set_audio_available v s :=
  mkState (brightness s) (volume s) (led_states s) v (switches s)
    (pixels s) (pixels_brightness s) (encoder_brightness s) (encoder_volume s)
    (audio_device s) (sink_faults s) (sigint s) (trace s).
Definition set_switches v s :=
  mkState (brightness s) (volume s) (led_states s) (audio_available s) v
    (pixels s) (pixels_brightness s) (encoder_brightness s) (encoder_volume s)
    (audio_device s) (sink_faults s) (sigint s) (trace s).
Definition set_pixels v s :=
  mkState (brightness s) (volume s) (led_states s) (audio_available s) (switches s)
    v (pixels_brightness s) (encoder_brightness s) (encoder_volume s)
    (audio_device s) (sink_faults s) (sigint s) (trace s).
Definition set_pixels_brightness v s :=
  mkState (brightness s) (volume s) (led_states s) (audio_available s) (switches s)
    (pixels s) v (encoder_brightness s) (encoder_volume s)
    (audio_device s) (sink_faults s) (sigint s) (trace s).
Definition set_encoder_brightness v s :=
  mkState (brightness s) (volume s) (led_states s) (audio_available s) (switches s)
    (pixels s) (pixels_brightness s) v (encoder_volume s)
    (audio_device s) (sink_faults s) (sigint s) (trace s).
Definition set_encoder_volume v s :=
  mkState (brightness s) (volume s) (led_states s) (audio_available s) (switches s)
    (pixels s) (pixels_brightness s) (encoder_brightness s) v
    (audio_device s) (sink_faults s) (sigint s) (trace s).
Definition set_sink_faults v s :=
  mkState (brightness s) (volume s) (led_states s) (audio_available s) (switches s)
    (pixels s) (pixels_brightness s) (encoder_brightness s) (encoder_volume s)
    (audio_device s) v (sigint s) (trace s).
Definition set_sigint v s :=
  mkState (brightness s) (volume s) (led_states s) (audio_available s) (switches s)
    (pixels s) (pixels_brightness s) (encoder_brightness s) (encoder_volume s)
    (audio_device s) (sink_faults s) v (trace s).
Definition set_trace v s :=
  mkState (brightness s) (volume s) (led_states s) (audio_available s) (switches s)
    (pixels s) (pixels_brightness s) (encoder_brightness s) (encoder_volume s)
    (audio_device s) (sink_faults s) (sigint s) v.

Definition emit (e : event) (s : state) : state := set_trace (trace s ++ [e]) s.

(** ** The monad: state, exceptions, and a loop that may still be running *)

Inductive outcome (A : Type) : Type :=
| Ok (a : A)
| Raise (e : exn)
| Running.  (* the observation ended while the loop was still going *)
Arguments Ok {A} a.
Arguments Raise {A} e.
Arguments Running {A}.

Definition M (A : Type) : Type := state -> outcome A * state.

Definition ret {A} (a : A) : M A := fun s => (Ok a, s).
Definition raise {A} (e : exn) : M A := fun s => (Raise e, s).
Definition bind {A B} (m : M A) (k : A -> M B) : M B :=
  fun s => match m s with
           | (Ok a, s') => k a s'
           | (Raise e, s') => (Raise e, s')
           | (Running, s') => (Running, s')
           end.

Declare Scope m_scope.
Delimit Scope m_scope with M.
Notation "x <- m ;; k" := (bind m (fun x => k))
  (at level 100, m at next level, k at level 200, right associativity) : m_scope.
Notation "m ;; k" := (bind m (fun _ => k))
  (at level 100, k at level 200, right associativity) : m_scope.
#[local] Open Scope m_scope.

Definition gets {A} (f : state -> A) : M A := fun s => (Ok (f s), s).
Definition modify (f : state -> state) : M unit := fun s => (Ok tt, f s).
Definition lift {A} (r : exn + A) : M A :=
  match r with inl e => raise e | inr a => ret a end.

(** The interpreter looks for a pending signal between statements: every
    statement of the main thread starts with [tick].  [sigint = Some n]
    means that the interrupt arrives after [n] more statements; it is
    delivered once. *)
Definition tick : M unit :=
  fun s => match sigint s with
           | None => (Ok tt, s)
           | Some O => (Raise KeyboardInterrupt, set_sigint None s)
           | Some (S n) => (Ok tt, set_sigint (Some n) s)
           end.

(** [try: body except Exception: handler] *)
Definition try_except_Exception {A} (body handler : M A) : M A :=
  fun s => match body s with
           | (Raise e, s') => if is_Exception e then handler s' else (Raise e, s')
           | r => r
           end.

(** [try: body except KeyboardInterrupt: handler] *)
Definition try_except_KeyboardInterrupt {A} (body handler : M A) : M A :=
  fun s => match body s with
           | (Raise KeyboardInterrupt, s') => handler s'
           | r => r
           end.

(** Code run by gpiozero in its own thread: the interrupt is only ever
    delivered to the main thread, and an exception ends that thread, not
    the script. *)
Definition in_background (m : M unit) : M unit :=
  fun s => match m (set_sigint None s) with
           | (_, s') => (Ok tt, set_sigint (sigint s) s')
           end.

(** [print(...)] *)
Definition print (m : message) : M unit := modify (emit (EvPrint m)).

(** ** External collaborators *)

(** [pixels.fill(c)], [pixels[i] = c], [pixels.brightness = b],
    [pixels.show()]: the strip keeps the colours as they were assigned and
    the brightness scalar apart; [show] pushes both to the hardware. *)
Definition pixels_fill (c : rgb) : M unit :=
  modify (fun s => emit (EvFill c) (set_pixels (replicate (length (pixels s)) c) s)).

Definition pixels_setitem (i : Z) (c : rgb) : M unit :=
  buffer <- gets pixels ;;
  n <- lift (Py.index (length buffer) i) ;;
  modify (fun s => emit (EvSetPixel n c) (set_pixels (<[n:=c]> (pixels s)) s)).

Definition pixels_set_brightness (b : float) : M unit :=
  modify (fun s => emit (EvSetBrightness b) (set_pixels_brightness b s)).

Definition pixels_show : M unit :=
  modify (fun s => emit (EvShow (pixels s) (pixels_brightness s)) s).

(** [audio_volume.SetMasterVolumeLevelScalar(scalar, None)]: the call is
    made, and fails when the environment says this one does. *)
Definition SetMasterVolumeLevelScalar (scalar : float) : M unit :=
  fun s =>
    let s1 := emit (EvSinkSet scalar) s in
    match sink_faults s with
    | true :: rest => (Raise AudioError, set_sink_faults rest s1)
    | false :: rest => (Ok tt, set_sink_faults rest s1)
    | [] => (Ok tt, s1)
    end.

(** [AudioUtilities.GetSpeakers()] and the activation of the endpoint. *)
Definition open_audio_endpoint : M unit :=
  modify (emit EvAudioProbe) ;;
  present <- gets audio_device ;;
  if present : bool then ret tt else raise AudioError.

Definition sleep : M unit := modify (emit EvSleep).

(** ** The script *)

(** Lines 54-63. *)
Definition init_audio : M unit :=
  try_except_Exception
    (tick ;; open_audio_endpoint ;;
     tick ;; modify (set_audio_available true) ;;
     tick ;; print MsgAudioInitialized)
    (tick ;; print MsgAudioNotAvailable ;;
     tick ;; modify (set_audio_available false)).

(** Lines 65-73. *)
Definition set_system_volume (vol : Z) : M unit :=
  tick ;;
  available <- gets audio_available ;;
  if available : bool then
    try_except_Exception
      (tick ;; volume_scalar <- lift (Py.int_div_float vol 100.0) ;;
       tick ;; SetMasterVolumeLevelScalar volume_scalar)
      (tick ;; print MsgErrorSettingVolume)
  else ret tt.

(** Lines 75-84. *)
Definition update_brightness (steps : Z) : M unit :=
  tick ;;
  old_brightness <- gets brightness ;;
  tick ;;
  current <- gets brightness ;;
  t <- lift (Py.int_mul_float steps brightness_step) ;;
  modify (set_brightness (Py.max 0.0 (Py.min 1.0 (current + t)))) ;;
  tick ;;
  new <- gets brightness ;;
  if Py.gt (abs (new - old_brightness)) brightness_threshold then
    tick ;; b <- gets brightness ;; pixels_set_brightness b ;;
    tick ;; pixels_show ;;
    tick ;;
    b' <- gets brightness ;;
    p <- lift (Py.float_mul_int b' 100) ;;
    percent <- lift (Py.int_of_float p) ;;
    print (MsgBrightness percent)
  else ret tt.

(** Lines 86-94. *)
Definition update_volume (steps : Z) : M unit :=
  tick ;;
  old_volume <- gets volume ;;
  tick ;;
  current <- gets volume ;;
  modify (set_volume (Z.max 0 (Z.min 100 (current + steps * volume_step)))) ;;
  tick ;;
  new <- gets volume ;;
  if Z.abs (new - old_volume) >? volume_threshold then
    v <- gets volume ;;
    set_system_volume v ;;
    tick ;;
    v' <- gets volume ;;
    print (MsgVolume v')
  else ret tt.

(** Lines 96-107. *)
Definition toggle_led (index : Z) : M unit :=
  tick ;;
  states <- gets led_states ;;
  old <- lift (Py.getitem states index) ;;
  states' <- lift (Py.setitem states index (negb old)) ;;
  modify (set_led_states states') ;;
  tick ;;
  states'' <- gets led_states ;;
  on <- lift (Py.getitem states'' index) ;;
  (if on : bool then
     tick ;;
     c <- lift (Py.getitem led_colors index) ;;
     pixels_setitem index c ;;
     tick ;;
     c' <- lift (Py.getitem led_colors index) ;;
     print (MsgLedOn (index + 1) c')
   else
     tick ;; pixels_setitem index black ;;
     tick ;; print (MsgLedOff (index + 1))) ;;
  tick ;; pixels_show.

(** Calling a stored callback with no argument, as gpiozero does for a
    function without mandatory parameters. *)
Definition call (c : closure) : M unit :=
  match c with ToggleLambda idx => toggle_led idx end.

(** Lines 109-112: the body of the [for] loop at position [i], then the
    rest of [enumerate(switches)]. *)
Fixpoint setup_from (i : nat) (rest : list switch) : M unit :=
  match rest with
  | [] => ret tt
  | _ :: rest' =>
      tick ;;
      modify (fun s =>
        set_switches
          (alter (fun sw => mkSwitch (pin sw) (Some (ToggleLambda (Z.of_nat i))))
                 i (switches s)) s) ;;
      setup_from (S i) rest'
  end.

Definition setup_switch_handlers : M unit :=
  sws <- gets switches ;; setup_from 0 sws.

(** ** The hardware around the script *)

(** What happens on the control surface between two polls: the encoders
    are turned by so many detents and some switches are pressed. *)
Record activity : Set := mkActivity {
  turned_brightness : Z;
  turned_volume : Z;
  pressed : list nat
}.

(** A gpiozero [RotaryEncoder] with [max_steps = 100]: its counter
    saturates at [-max_steps] and [max_steps]. *)
Definition rotate (steps turned : Z) : Z :=
  Z.max (- MAX_STEPS) (Z.min MAX_STEPS (steps + turned)).

(** A Pressed edge on switch [k]: gpiozero runs its callback, if any. *)
Definition press (k : nat) : M unit :=
  in_background
    (sws <- gets switches ;;
     match sws !! k with
     | Some sw => match when_pressed sw with
                  | Some c => call c
                  | None => ret tt
                  end
     | None => ret tt
     end).

Fixpoint press_all (ks : list nat) : M unit :=
  match ks with
  | [] => ret tt
  | k :: ks' => press k ;; press_all ks'
  end.

Definition environment (a : activity) : M unit :=
  modify (fun s => set_encoder_brightness (rotate (encoder_brightness s) (turned_brightness a)) s) ;;
  modify (fun s => set_encoder_volume (rotate (encoder_volume s) (turned_volume a)) s) ;;
  press_all (pressed a).

(** ** main (lines 114-159) *)

(** One poll of an encoder (lines 140-144 and 147-151): returns the new
    value of the [last_..._value] local. *)
Definition poll_brightness (last_brightness_value : Z) : M Z :=
  tick ;;
  current_brightness <- gets encoder_brightness ;;
  tick ;;
  if Z.eqb current_brightness last_brightness_value then ret last_brightness_value
  else
    tick ;;
    let delta := current_brightness - last_brightness_value in
    update_brightness delta ;;
    tick ;;
    ret current_brightness.

Definition poll_volume (last_volume_value : Z) : M Z :=
  tick ;;
  current_volume <- gets encoder_volume ;;
  tick ;;
  if Z.eqb current_volume last_volume_value then ret last_volume_value
  else
    tick ;;
    let delta := current_volume - last_volume_value in
    update_volume delta ;;
    tick ;;
    ret current_volume.

(** [while True:] observed for as many iterations as there are entries in
    [acts]; the loop has no exit of its own, so when the observation ends
    it is still [Running]. *)
Fixpoint control_loop (acts : list activity)
    (last_brightness_value last_volume_value : Z) : M unit :=
  match acts with
  | [] => fun s => (Running, s)
  | a :: acts' =>
      environment a ;;
      last_brightness_value' <- poll_brightness last_brightness_value ;;
      last_volume_value' <- poll_volume last_volume_value ;;
      tick ;; sleep ;;
      control_loop acts' last_brightness_value' last_volume_value'
  end.

(** Lines 115-135. *)
Definition startup : M (Z * Z) :=
  tick ;; print (MsgBanner 0) ;;
  tick ;; print (MsgBanner 1) ;;
  tick ;; print (MsgBanner 2) ;;
  tick ;; print (MsgBanner 3) ;;
  tick ;; print (MsgBanner 4) ;;
  tick ;; print (MsgBanner 5) ;;
  tick ;; print (MsgBanner 6) ;;
  tick ;; pixels_fill black ;;
  tick ;; pixels_show ;;
  setup_switch_handlers ;;
  v <- gets volume ;;
  set_system_volume v ;;
  tick ;;
  last_brightness_value <- gets encoder_brightness ;;
  tick ;;
  last_volume_value <- gets encoder_volume ;;
  ret (last_brightness_value, last_volume_value).

(** Lines 155-159. *)
Definition shutdown : M unit :=
  tick ;; print MsgShuttingDown ;;
  tick ;; pixels_fill black ;;
  tick ;; pixels_show ;;
  tick ;; print MsgGoodbye.

(** Lines 137-159. *)
Definition guarded_loop (acts : list activity) (last_b last_v : Z) : M unit :=
  try_except_KeyboardInterrupt (control_loop acts last_b last_v) shutdown.

Definition main (acts : list activity) : M unit :=
  lasts <- startup ;;
  guarded_loop acts (fst lasts) (snd lasts).

(** The state once lines 15-52 have run: nothing lit, no callback installed,
    [audio_available] not assigned yet. *)
Definition boot (device : bool) (faults : list bool) (sig : option nat) : state :=
  {| brightness := initial_brightness;
     volume := initial_volume;
     led_states := replicate NUM_LEDS false;
     audio_available := false;
     switches := (fun p => mkSwitch p None) <$> SWITCH_PINS;
     pixels := replicate NUM_LEDS black;
     pixels_brightness := 0.5%float;
     encoder_brightness := 0;
     encoder_volume := 0;
     audio_device := device;
     sink_faults := faults;
     sigint := sig;
     trace := [] |}.

(** The whole script: module initialisation, then [main()]. *)
Definition script (acts : list activity) : M unit :=
  init_audio ;; main acts.

(** How the process ends: [main()] returning is the success status, an
    exception that leaves [main()] is a failure. *)
Inductive termination : Set := ExitSuccess | ExitFailure | StillRunning.

Definition exit_status (r : outcome unit) : termination :=
  match r with
  | Ok _ => ExitSuccess
  | Raise _ => ExitFailure
  | Running => StillRunning
  end.

(** ** Sequences of integrator updates *)

Inductive knob : Set := Brightness | Volume.

Definition apply_delta (kd : knob * Z) : M unit :=
  match kd with
  | (Brightness, d) => update_brightness d
  | (Volume, d) => update_volume d
  end.

(** The state after a sequence of raw step deltas, whatever the outcome
    of each call. *)
Fixpoint apply_deltas (ds : list (knob * Z)) (s : state) : state :=
  match ds with
  | [] => s
  | kd :: ds' => apply_deltas ds' (snd (apply_delta kd s))
  end.

Definition brightness_in_bounds (s : state) : Prop :=
  (0 <=? brightness s)%float = true /\ (brightness s <=? 1)%float = true.

Definition volume_in_bounds (s : state) : Prop :=
  0 <= volume s <= 100.

Definition in_bounds (s : state) : Prop :=
  brightness_in_bounds s /\ volume_in_bounds s.

(** ** Vocabulary of the proofs *)

(** [post m s Q]: the outcome and final state of [m] run from [s]
    satisfy [Q]. *)
Definition post {A} (m : M A) (s : state) (Q : outcome A -> state -> Prop) : Prop :=
  Q (fst (m s)) (snd (m s)).

(** Mantissas met while rounding: nonnegative and at most [M]. *)
Definition shr_within (M : Z) (mrs : shr_record) : Prop := 0 <= shr_m mrs <= M.

(** A binary64 value that is neither an infinity nor a NaN. *)
Definition ordinary (x : spec_float) : Prop :=
  match x with
  | S754_zero _ | S754_finite _ _ _ => True
  | _ => False
  end.

(** [clamp(x, lo, hi)] as the script writes it: [max(lo, min(hi, x))]. *)
Definition clamp (x lo hi : float) : float := Py.max lo (Py.min hi x).
Definition clampZ (x lo hi : Z) : Z := Z.max lo (Z.min hi x).

(** The value an integrator holds after a raw step delta. *)
Definition brightness_after (old : float) (delta : Z) : exn + float :=
  match Py.int_mul_float delta brightness_step with
  | inl e => inl e
  | inr t => inr (clamp (old + t) 0 1)
  end.

Definition volume_after (old delta : Z) : Z :=
  clampZ (old + delta * volume_step) 0 100.

(** [int(brightness * 100)] *)
Definition percent_of (b : float) : exn + Z :=
  match Py.float_mul_int b 100 with
  | inl e => inl e
  | inr p => Py.int_of_float p
  end.

(** What [set_system_volume] leaves behind when nothing interrupts it. *)
Definition sink_push (vol : Z) (s : state) : state :=
  if audio_available s then
    match Py.int_div_float vol 100 with
    | inl _ => emit (EvPrint MsgErrorSettingVolume) s
    | inr x =>
        match sink_faults s with
        | true :: rest =>
            emit (EvPrint MsgErrorSettingVolume)
              (set_sink_faults rest (emit (EvSinkSet x) s))
        | false :: rest => set_sink_faults rest (emit (EvSinkSet x) s)
        | [] => emit (EvSinkSet x) s
        end
    end
  else s.

(** The integers an encoder delta can be: both counters live in
    [-100, 100]. *)
Definition small_ints : list Z := (fun k => Z.of_nat k - 200) <$> seq 0 401.

(** Does the next call to the audio endpoint raise. *)
Definition sink_fails (s : state) : bool :=
  match sink_faults s with
  | true :: _ => true
  | _ => false
  end.

(** Forgetting the interrupt countdown. *)
Definition quiet (s : state) : state := set_sigint None s.

(** The pixel buffer that shows a given list of on/off states: the
    assigned colour where the LED is on, black where it is off. *)
Definition render (states : list bool) : list rgb :=
  zip_with (fun (on : bool) (c : rgb) => if on then c else black) states led_colors.

(** The pixel buffer shows the LED states. *)
Definition consistent (s : state) : Prop :=
  length (led_states s) = NUM_LEDS /\ pixels s = render (led_states s).

(** The switches once [setup_switch_handlers] has run. *)
Definition wired_switches : list switch :=
  imap (fun k p => mkSwitch p (Some (ToggleLambda (Z.of_nat k)))) SWITCH_PINS.

(** The state [toggle_led(k)] leaves behind when LED [k] was [on]. *)
Definition toggled (k : nat) (on : bool) (s : state) : state :=
  let c := if negb on then default black (led_colors !! k) else black in
  let msg := if negb on then MsgLedOn (Z.of_nat k + 1) c
             else MsgLedOff (Z.of_nat k + 1) in
  let px := <[k:=c]> (pixels s) in
  emit (EvShow px (pixels_brightness s))
    (emit (EvPrint msg)
       (emit (EvSetPixel k c)
          (set_pixels px (set_led_states (<[k:=negb on]> (led_states s)) s)))).

(** ** Interrupts and the uninterrupted run *)

(** A state update, or a read, that does not look at the countdown. *)
Definition pure_update (f : state -> state) : Prop :=
  forall sg s, f (set_sigint sg s) = set_sigint sg (f s).

Definition blind {A} (f : state -> A) : Prop :=
  forall sg s, f (set_sigint sg s) = f s.

(** A result that, when it is an exception, is not the interrupt. *)
Definition ordinary_error {A} (r : exn + A) : Prop :=
  forall e, r = inl e -> is_Exception e = true.

(** [m] deals with the interrupt as Python does: either the signal is
    delivered during the run, which then ends there with
    [KeyboardInterrupt], or the run goes exactly as it would with no
    signal pending. *)
Definition interruptible {A} (m : M A) : Prop :=
  forall s r s', m s = (r, s') ->
    (r = Raise KeyboardInterrupt /\ sigint s <> None /\ sigint s' = None) \/
    (r <> Raise KeyboardInterrupt /\
     m (quiet s) = (r, quiet s') /\
     (sigint s = None <-> sigint s' = None)).

(** What the integrators, the audio call and the statements around them
    leave untouched: a state with the fields they may write blanked. *)
Definition but_brightness (s : state) : state :=
  set_sigint None (set_trace [] (set_pixels_brightness 0 (set_brightness 0 s))).

Definition but_sink (s : state) : state :=
  set_sigint None (set_trace [] (set_sink_faults [] s)).

Definition but_volume (s : state) : state :=
  set_volume 0 (but_sink s).

(** The state in which the control loop is entered when nothing
    interrupts the startup. *)
Definition started (device : bool) (faults : list bool) : state :=
  snd ((init_audio ;; startup) (boot device faults None)).

(** ** States met while the control loop runs *)

(** The states the script can be in between two complete operations of
    the control loop: after the startup sequence, and from then on after
    any Pressed edge, any turn of an encoder, any update of an integrator
    that returned, with the interrupt countdown at any value. *)
Inductive running : state -> Prop :=
| running_started device faults sig lasts s :
    (init_audio ;; startup) (boot device faults sig) = (Ok lasts, s) ->
    running s
| running_signal sg s :
    running s -> running (set_sigint sg s)
| running_sleep s :
    running s -> running (emit EvSleep s)
| running_turn_brightness turned s :
    running s ->
    running (set_encoder_brightness (rotate (encoder_brightness s) turned) s)
| running_turn_volume turned s :
    running s ->
    running (set_encoder_volume (rotate (encoder_volume s) turned) s)
| running_press k s :
    running s -> running (snd (press k s))
| running_update_brightness d s s' :
    running s -> update_brightness d s = (Ok tt, s') -> running s'
| running_update_volume d s s' :
    running s -> update_volume d s = (Ok tt, s') -> running s'.

(** How many times the audio endpoint was opened. *)
Fixpoint count_probes (l : list event) : nat :=
  match l with
  | [] => 0
  | EvAudioProbe :: l' => S (count_probes l')
  | _ :: l' => count_probes l'
  end.

Definition probes (s : state) : nat := count_probes (trace s).

(** What holds of every such state. *)
Record invariant (s : state) : Prop := mkInvariant {
  inv_consistent : consistent s;
  inv_wired : switches s = wired_switches;
  inv_bounds : in_bounds s;
  inv_even : Z.even (volume s) = true;
  inv_encoder_brightness : - MAX_STEPS <= encoder_brightness s <= MAX_STEPS;
  inv_encoder_volume : - MAX_STEPS <= encoder_volume s <= MAX_STEPS;
  inv_audio : audio_available s = audio_device s;
  inv_probed : probes s = 1%nat
}.

(** A state in which the interrupt cut a statement of the loop short:
    the LEDs and the pixel buffer are those of a running state. *)
Definition halted (s : state) : Prop :=
  exists s0, running s0 /\ pixels s = pixels s0 /\ led_states s = led_states s0.

(** The state the shutdown sequence leaves behind (lines 156-159). *)
Definition shut_down (s : state) : state :=
  let dark := replicate (length (pixels s)) black in
  emit (EvPrint MsgGoodbye)
    (emit (EvShow dark (pixels_brightness s))
       (emit (EvFill black)
          (set_pixels dark (emit (EvPrint MsgShuttingDown) s)))).

(** Within reach of an encoder counter. *)
Definition in_steps (n : Z) : Prop := - MAX_STEPS <= n <= MAX_STEPS.

(** Every pixel is black or shows the colour assigned to its LED. *)
Definition palette (s : state) : Prop :=
  forall i p, pixels s !! i = Some p -> p = black \/ led_colors !! i = Some p.

(** Nothing is lit. *)
Definition dark (s : state) : Prop := pixels s = replicate NUM_LEDS black.

(** ** Vocabulary of the edge cases and of the traces *)

(** The state [toggle_led(i)] leaves behind when the subscript [i] names
    slot [k] of the nine-element lists and LED [k] was [on]: the log line
    carries [i + 1]. *)
Definition toggled_at (i : Z) (k : nat) (on : bool) (s : state) : state :=
  let c := if negb on then default black (led_colors !! k) else black in
  let msg := if negb on then MsgLedOn (i + 1) c else MsgLedOff (i + 1) in
  let px := <[k:=c]> (pixels s) in
  emit (EvShow px (pixels_brightness s))
    (emit (EvPrint msg)
       (emit (EvSetPixel k c)
          (set_pixels px (set_led_states (<[k:=negb on]> (led_states s)) s)))).

(** Nothing happens on the control surface. *)
Definition idle : activity := mkActivity 0 0 [].


(** What [toggle_led] and a Pressed edge leave untouched. *)
Definition but_leds (s : state) : state :=
  set_sigint None (set_trace [] (set_pixels [] (set_led_states [] s))).

(** The seven lines [main] prints first (lines 115-121). *)
Definition banner : list event := (fun n => EvPrint (MsgBanner n)) <$> seq 0 7.

(** A float between 0.0 and 1.0. *)
Definition unit_interval (x : float) : Prop :=
  (0 <=? x)%float = true /\ (x <=? 1)%float = true.

(** A frame of nine pixels, each black or of its LED's colour. *)
Definition frame_ok (frame : list rgb) : Prop :=
  length frame = NUM_LEDS /\
  forall i p, frame !! i = Some p -> p = black \/ led_colors !! i = Some p.

(** What the strip and the audio endpoint are asked to do stays within
    what they accept. *)
Definition event_in_range (e : event) : Prop :=
  match e with
  | EvFill c => c = black
  | EvSetPixel i c => (i < NUM_LEDS)%nat /\ (c = black \/ led_colors !! i = Some c)
  | EvSetBrightness b => unit_interval b
  | EvShow frame b => frame_ok frame /\ unit_interval b
  | EvSinkSet x =>
      unit_interval x /\
      exists v, 0 <= v <= 100 /\ Z.even v = true /\ Py.int_div_float v 100 = inr x
  | _ => True
  end.

Definition in_range (s : state) : Prop :=
  Forall event_in_range (trace s) /\ unit_interval (pixels_brightness s).

(** [m] only ever adds to the trace, and only events that satisfy [P],
    from whatever state it is run and however it ends. *)
Definition emits {A} (P : event -> Prop) (m : M A) : Prop :=
  forall s, exists evs, trace (snd (m s)) = trace s ++ evs /\ Forall P evs.

(** The outside calls made up to the loop (lines 54-63 and 115-135). *)
Definition startup_call (e : event) : Prop :=
  match e with
  | EvAudioProbe | EvFill _ | EvShow _ _ | EvSinkSet _
  | EvPrint MsgAudioInitialized | EvPrint MsgAudioNotAvailable
  | EvPrint MsgErrorSettingVolume | EvPrint (MsgBanner _) => True
  | _ => False
  end.

(** The outside calls of each of the three handlers. *)
Definition brightness_call (e : event) : Prop :=
  match e with
  | EvSetBrightness _ | EvShow _ _ | EvPrint (MsgBrightness _) => True
  | _ => False
  end.

Definition volume_call (e : event) : Prop :=
  match e with
  | EvSinkSet _ | EvPrint (MsgVolume _) | EvPrint MsgErrorSettingVolume => True
  | _ => False
  end.

Definition led_call (e : event) : Prop :=
  match e with
  | EvSetPixel _ _ | EvShow _ _ | EvPrint (MsgLedOn _ _) | EvPrint (MsgLedOff _) => True
  | _ => False
  end.

(** A list of switches with every callback replaced by the lambda that
    holds the position of the switch in the list. *)
Definition rewired (sws : list switch) : list switch :=
  imap (fun k sw => mkSwitch (pin sw) (Some (ToggleLambda (Z.of_nat k)))) sws.

(** * Proofs *)

(** ** Binary64 order *)

Lemma ltb_leb (a b : float) : (a <? b)%float = true -> (a <=? b)%float = true.
Proof.
  rewrite ltb_spec, leb_spec. unfold SFltb, SFleb.
  destruct (SFcompare (Prim2SF a) (Prim2SF b)) as [[]|]; congruence.
Qed.

Lemma clamp_unit_interval (x : float) :
  let r := Py.max 0 (Py.min 1 x) in
  (0 <=? r)%float = true /\ (r <=? 1)%float = true.
Proof.
  unfold Py.max, Py.min.
  destruct (x <? 1)%float eqn:H1.
  - destruct (0 <? x)%float eqn:H0.
    + split; now apply ltb_leb.
    + split; reflexivity.
  - split; reflexivity.
Qed.

(** ** Binary64 rounding: products that cannot overflow *)

Lemma digits2_pos_log2 (p : positive) :
  Z.pos (digits2_pos p) = Z.log2 (Z.pos p) + 1.
Proof.
  assert (H : forall q, digits2_pos q = Pos.size q).
  { induction q; cbn; congruence. }
  rewrite H. destruct p; cbn; lia.
Qed.

Lemma Zdigits2_le (z d : Z) : 0 <= z -> z < 2 ^ d -> 0 <= d -> Zdigits2 z <= d.
Proof.
  intros Hz Hlt Hd. destruct z as [|p|p]; cbn; [lia| |lia].
  rewrite digits2_pos_log2.
  assert (Z.log2 (Z.pos p) < d) by (apply Z.log2_lt_pow2; lia). lia.
Qed.

Lemma digits2_pos_bound (p : positive) : Z.pos p < 2 ^ Z.pos (digits2_pos p).
Proof.
  rewrite digits2_pos_log2.
  replace (Z.log2 (Z.pos p) + 1) with (Z.succ (Z.log2 (Z.pos p))) by lia.
  apply Z.log2_spec. lia.
Qed.

Lemma shr_1_within M mrs : shr_within M mrs -> shr_within M (shr_1 mrs).
Proof.
  unfold shr_within. destruct mrs as [m r s]. cbn.
  destruct m as [|[p|p|]|[p|p|]]; cbn; lia.
Qed.

Lemma iter_shr_1_within M n mrs :
  shr_within M mrs -> shr_within M (SpecFloat.iter_pos shr_1 n mrs).
Proof.
  revert mrs. induction n; intros mrs H; cbn; auto using shr_1_within.
Qed.

Lemma shr_fexp_within (m e : Z) (l : location) (M E : Z) :
  0 <= m <= M -> e <= E -> fexp prec emax (Zdigits2 m + e) <= E ->
  shr_within M (fst (shr_fexp prec emax m e l)) /\ snd (shr_fexp prec emax m e l) <= E.
Proof.
  intros Hm He Hf. unfold shr_fexp, shr.
  assert (H0 : shr_within M (shr_record_of_loc m l)).
  { unfold shr_within. destruct l as [|[]]; cbn; lia. }
  destruct (fexp prec emax (Zdigits2 m + e) - e) as [|p|p] eqn:E0; cbn; try (split; [exact H0 | lia]).
  split; [now apply iter_shr_1_within | lia].
Qed.

Lemma round_nearest_even_within (m : Z) (l : location) :
  0 <= m -> m <= round_nearest_even m l <= m + 1.
Proof.
  intros. destruct l as [|[]]; cbn; try lia. destruct (Z.even m); lia.
Qed.

Lemma fexp_le (x B : Z) : x - 53 <= B -> -1074 <= B -> fexp prec emax x <= B.
Proof. unfold fexp, emin, prec, emax. lia. Qed.

Lemma binary_round_aux_ordinary sx (m : positive) (ex D E : Z) :
  Z.pos (digits2_pos m) <= D -> ex <= E -> 53 <= D -> 2 * D + E <= 1076 ->
  D <= 1000 ->
  ordinary (binary_round_aux prec emax sx (Z.pos m) ex loc_Exact).
Proof.
  intros Hd He HD HE HD'. unfold binary_round_aux.
  assert (Hm : 0 <= Z.pos m <= 2 ^ D - 1).
  { pose proof (digits2_pos_bound m).
    assert (2 ^ Z.pos (digits2_pos m) <= 2 ^ D) by (apply Z.pow_le_mono_r; lia). lia. }
  set (E1 := Z.max (D + E - 53) (-1074)).
  destruct (shr_fexp_within (Z.pos m) ex loc_Exact (2 ^ D - 1) E1 Hm) as [Hw1 He1].
  { unfold E1. lia. }
  { apply fexp_le; cbn [Zdigits2]; unfold E1; lia. }
  destruct (shr_fexp prec emax (Z.pos m) ex loc_Exact) as [mrs' e']. cbn [fst snd] in *.
  pose proof (round_nearest_even_within (shr_m mrs') (loc_of_shr_record mrs') (proj1 Hw1)) as Hr.
  set (m1 := round_nearest_even (shr_m mrs') (loc_of_shr_record mrs')) in *.
  unfold shr_within in Hw1.
  assert (Hm1 : 0 <= m1 <= 2 ^ D) by lia.
  assert (Hdig : Zdigits2 m1 <= D + 1).
  { apply Zdigits2_le; try lia.
    rewrite Z.pow_add_r by lia. change (2 ^ 1) with 2. lia. }
  set (E2 := Z.max (D + E1 - 52) (-1074)).
  destruct (shr_fexp_within m1 e' loc_Exact (2 ^ D) E2 Hm1) as [Hw2 He2].
  { unfold E2, E1 in *. lia. }
  { apply fexp_le; unfold E2, E1 in *; lia. }
  destruct (shr_fexp prec emax m1 e' loc_Exact) as [mrs'' e'']. cbn [fst snd] in *.
  unfold shr_within in Hw2.
  destruct (shr_m mrs'') as [|p|p]; cbn; [exact I | | lia].
  assert (Hle : (e'' <=? emax - prec) = true).
  { apply Z.leb_le. unfold E2, E1, emax, prec in *. lia. }
  rewrite Hle. exact I.
Qed.

Lemma float_of_int_100 : Py.float_of_int 100 = inr 100%float.
Proof. vm_compute. reflexivity. Qed.

Lemma Prim2SF_consts :
  Prim2SF 0 = S754_zero false /\
  Prim2SF 1 = S754_finite false 4503599627370496 (-52) /\
  Prim2SF 100 = S754_finite false 7036874417766400 (-46).
Proof. vm_compute. auto. Qed.

Lemma percent_defined (b : float) :
  (0 <=? b)%float = true -> (b <=? 1)%float = true ->
  exists p z, Py.float_mul_int b 100 = inr p /\ Py.int_of_float p = inr z.
Proof.
  intros H0 H1. exists (b * 100)%float.
  assert (Hm : Py.float_mul_int b 100 = inr (b * 100)%float).
  { unfold Py.float_mul_int. now rewrite float_of_int_100. }
  unfold Py.int_of_float. rewrite mul_spec.
  rewrite leb_spec in H0, H1.
  pose proof (Prim2SF_valid b) as Hv.
  destruct Prim2SF_consts as (E0 & E1 & E100).
  rewrite E0 in H0. rewrite E1 in H1. rewrite E100. clear E0 E1 E100.
  destruct (Prim2SF b) as [sz | si | | sg m e].
  - cbn. eauto.
  - destruct si; discriminate.
  - discriminate.
  - destruct sg; [discriminate|]. 
    cbn [valid_binary bounded] in Hv.
    apply andb_prop in Hv as [Hc _]. unfold canonical_mantissa in Hc.
    apply Z.eqb_eq in Hc. unfold fexp, emin, prec, emax in Hc.
    assert (He : e <= -52).
    { unfold SFleb, SFcompare in H1. destruct (Z.compare_spec e (-52)); lia. }
    unfold SF64mul, SFmul. cbn [xorb].
    assert (Ho : ordinary (binary_round_aux prec emax false (Z.pos (m * 7036874417766400)) (e + -46) loc_Exact)).
    { apply (binary_round_aux_ordinary false (m * 7036874417766400) (e + -46) 106 (-98)); try lia.
      rewrite digits2_pos_log2, Pos2Z.inj_mul.
      pose proof (Z.log2_mul_above (Z.pos m) 7036874417766400 ltac:(lia) ltac:(lia)) as Hl.
      change (Z.log2 7036874417766400) with 52 in Hl.
      rewrite digits2_pos_log2 in Hc. lia. }
    destruct (binary_round_aux prec emax false (Z.pos (m * 7036874417766400)) (e + -46) loc_Exact);
      cbn [ordinary] in Ho; try contradiction; eauto.
Qed.

(** ** Running the monad by hand *)

Arguments tick : simpl never.
Arguments Py.float_of_int : simpl never.
Arguments Py.int_of_float : simpl never.
Arguments Py.max : simpl never.
Arguments Py.min : simpl never.
Arguments Py.gt : simpl never.

Lemma tick_spec (s : state) :
  (exists sg, tick s = (Ok tt, set_sigint sg s)) \/
  tick s = (Raise KeyboardInterrupt, set_sigint None s).
Proof.
  unfold tick. destruct s as [? ? ? ? ? ? ? ? ? ? ? [[|n]|] ?]; cbn.
  - now right.
  - left. now exists (Some n).
  - left. now exists None.
Qed.

Lemma tick_quiet (s : state) : sigint s = None -> tick s = (Ok tt, s).
Proof. unfold tick. now intros ->. Qed.

Section PostRules.
Context {A B : Type}.
Implicit Types (Q : outcome A -> state -> Prop) (s : state).

Lemma post_elim (m : M A) s Q r s' : m s = (r, s') -> post m s Q -> Q r s'.
Proof. unfold post. now intros ->. Qed.

Lemma post_conseq (m : M A) s Q Q' :
  post m s Q -> (forall r s', Q r s' -> Q' r s') -> post m s Q'.
Proof. unfold post. auto. Qed.

Lemma post_ret (a : A) s Q : Q (Ok a) s -> post (ret a) s Q.
Proof. auto. Qed.

Lemma post_raise e s Q : Q (Raise e) s -> post (raise e) s Q.
Proof. auto. Qed.

Lemma post_lift (r : exn + A) s Q :
  match r with inl e => Q (Raise e) s | inr a => Q (Ok a) s end ->
  post (lift r) s Q.
Proof. now destruct r. Qed.

Lemma post_bind (m : M B) (k : B -> M A) s Q :
  post m s (fun r s' =>
    match r with
    | Ok b => post (k b) s' Q
    | Raise e => Q (Raise e) s'
    | Running => Q Running s'
    end) ->
  post (bind m k) s Q.
Proof. unfold post, bind. now destruct (m s) as [[b|e|] s']. Qed.

Lemma post_try_except_Exception (body handler : M A) s Q :
  post body s (fun r s' =>
    match r with
    | Raise e => if is_Exception e then post handler s' Q else Q (Raise e) s'
    | _ => Q r s'
    end) ->
  post (try_except_Exception body handler) s Q.
Proof.
  unfold post, try_except_Exception.
  destruct (body s) as [[a|e|] s']; cbn; auto. now destruct (is_Exception e).
Qed.

Lemma post_try_except_KeyboardInterrupt (body handler : M A) s Q :
  post body s (fun r s' =>
    match r with
    | Raise KeyboardInterrupt => post handler s' Q
    | _ => Q r s'
    end) ->
  post (try_except_KeyboardInterrupt body handler) s Q.
Proof.
  unfold post, try_except_KeyboardInterrupt.
  destruct (body s) as [[a|e|] s']; cbn; auto. now destruct e.
Qed.
End PostRules.

Lemma post_gets {A} (f : state -> A) s (Q : outcome A -> state -> Prop) :
  Q (Ok (f s)) s -> post (gets f) s Q.
Proof. auto. Qed.

Lemma post_modify f s (Q : outcome unit -> state -> Prop) :
  Q (Ok tt) (f s) -> post (modify f) s Q.
Proof. auto. Qed.

(** One statement boundary: either execution goes on, with some other
    countdown, or the interrupt is delivered here. *)
Lemma post_tick s (Q : outcome unit -> state -> Prop) :
  (forall sg, Q (Ok tt) (set_sigint sg s)) ->
  Q (Raise KeyboardInterrupt) (set_sigint None s) ->
  post tick s Q.
Proof.
  intros Hgo Hint. unfold post.
  destruct (tick_spec s) as [[sg ->] | ->]; cbn; auto.
Qed.

Lemma post_tick_quiet s (Q : outcome unit -> state -> Prop) :
  sigint s = None -> Q (Ok tt) s -> post tick s Q.
Proof. intros H HQ. unfold post. now rewrite tick_quiet. Qed.

Lemma post_in_background (m : M unit) s (Q : outcome unit -> state -> Prop) :
  post m (set_sigint None s) (fun _ s' => Q (Ok tt) (set_sigint (sigint s) s')) ->
  post (in_background m) s Q.
Proof. unfold post, in_background. now destruct (m (set_sigint None s)). Qed.

Lemma post_SetMasterVolumeLevelScalar x s (Q : outcome unit -> state -> Prop) :
  (forall rest, Q (Ok tt) (set_sink_faults rest (emit (EvSinkSet x) s))) ->
  (forall rest, Q (Raise AudioError) (set_sink_faults rest (emit (EvSinkSet x) s))) ->
  post (SetMasterVolumeLevelScalar x) s Q.
Proof.
  intros Hok Hfail. unfold post, SetMasterVolumeLevelScalar.
  destruct (sink_faults s) as [|[] rest] eqn:E; cbn; auto.
  specialize (Hok []). destruct s; cbn in *. now subst.
Qed.

Lemma post_SetMasterVolumeLevelScalar_exact x s (Q : outcome unit -> state -> Prop) :
  match sink_faults s with
  | true :: rest => Q (Raise AudioError) (set_sink_faults rest (emit (EvSinkSet x) s))
  | false :: rest => Q (Ok tt) (set_sink_faults rest (emit (EvSinkSet x) s))
  | [] => Q (Ok tt) (emit (EvSinkSet x) s)
  end ->
  post (SetMasterVolumeLevelScalar x) s Q.
Proof.
  unfold post, SetMasterVolumeLevelScalar. now destruct (sink_faults s) as [|[] rest].
Qed.

Ltac wp_simpl := cbv beta iota; cbn [is_Exception].

Ltac wp_step :=
  wp_simpl;
  lazymatch goal with
  | |- post (bind _ _) _ _ => apply post_bind
  | |- post (ret _) _ _ => apply post_ret
  | |- post (raise _) _ _ => apply post_raise
  | |- post (gets _) _ _ => apply post_gets
  | |- post (modify _) _ _ => apply post_modify
  | |- post (print _) _ _ => apply post_modify
  | |- post sleep _ _ => apply post_modify
  | |- post (pixels_fill _) _ _ => apply post_modify
  | |- post (pixels_set_brightness _) _ _ => apply post_modify
  | |- post pixels_show _ _ => apply post_modify
  | |- post (lift _) _ _ => apply post_lift
  | |- post (try_except_Exception _ _) _ _ => apply post_try_except_Exception
  | |- post (try_except_KeyboardInterrupt _ _) _ _ =>
      apply post_try_except_KeyboardInterrupt
  | |- post (in_background _) _ _ => apply post_in_background
  end.

(** Statement boundaries with an arbitrary countdown... *)
Ltac wp_tick :=
  wp_simpl;
  lazymatch goal with
  | |- post tick _ _ => apply post_tick; [intros ?sg | ]
  end.

(** ... and with no interrupt pending. *)
Ltac wp_quiet :=
  wp_simpl;
  lazymatch goal with
  | |- post tick _ _ => apply post_tick_quiet; [cbn; assumption | ]
  end.

Ltac wp_case :=
  wp_simpl;
  lazymatch goal with
  | |- post (if ?b then _ else _) _ _ => destruct b eqn:?
  | |- match ?r with inl _ => _ | inr _ => _ end => destruct r eqn:?
  | |- if ?b then _ else _ => destruct b eqn:?
  end.

(** The audio call, whatever the environment answers... *)
Ltac wp_sink :=
  wp_simpl;
  lazymatch goal with
  | |- post (SetMasterVolumeLevelScalar _) _ _ =>
      apply post_SetMasterVolumeLevelScalar; intros ?rest
  end.

(** ... and following what it answers. *)
Ltac wp_sink_exact :=
  wp_simpl;
  lazymatch goal with
  | |- post (SetMasterVolumeLevelScalar _) ?s _ =>
      apply post_SetMasterVolumeLevelScalar_exact;
      let E := fresh "Hfaults" in
      destruct (sink_faults s) as [|[] ?rest] eqn:E
  end.

Ltac wp_run := repeat first [wp_tick | wp_step | wp_case | wp_sink].
Ltac wp_run_exact := repeat first [wp_tick | wp_step | wp_case | wp_sink_exact].
Ltac wp_run_quiet := repeat first [wp_quiet | wp_step | wp_case | wp_sink_exact].

(** Closing a leaf: compute the state projections, then use what the
    case analysis recorded. *)
Ltac wp_done :=
  cbn in *;
  repeat match goal with H : ?x = _ |- context [?x] => rewrite H end;
  try reflexivity; try discriminate.

(** ** Rules for interruptible computations *)

Ltac not_delivered :=
  right; repeat split;
  first [assumption | reflexivity | discriminate | tauto | congruence].

Section Interruptible.
Context {A B : Type}.

Lemma interruptible_ret (a : A) : interruptible (ret a).
Proof. intros s r s' [= <- <-]. right. repeat split; auto; discriminate. Qed.

Lemma interruptible_raise (e : exn) :
  is_Exception e = true -> interruptible (@raise A e).
Proof.
  intros He s r s' [= <- <-]. right. repeat split; auto.
  intros [= ->]. discriminate.
Qed.

Lemma interruptible_lift (r : exn + A) : ordinary_error r -> interruptible (lift r).
Proof.
  intros Hr. destruct r as [e|a]; [apply interruptible_raise; now apply Hr|].
  apply interruptible_ret.
Qed.

Lemma interruptible_gets (f : state -> A) : blind f -> interruptible (gets f).
Proof.
  intros Hf s r s' [= <- <-]. right. repeat split; auto; try discriminate.
  unfold gets, quiet. now rewrite Hf.
Qed.

Lemma interruptible_bind (m : M B) (k : B -> M A) :
  interruptible m -> (forall b, interruptible (k b)) -> interruptible (bind m k).
Proof.
  intros Hm Hk s r s' H. unfold bind in *.
  destruct (m s) as [r1 s1] eqn:E1.
  destruct (Hm s r1 s1 E1) as [(-> & Hs & Hs1) | (Hr1 & Hq & Hiff)].
  - injection H as <- <-. now left.
  - rewrite Hq. destruct r1 as [b|e|].
    + destruct (Hk b s1 r s' H) as [(-> & Hs1 & Hs') | (Hr & Hq' & Hiff')].
      * left. repeat split; auto. now rewrite Hiff.
      * not_delivered.
    + injection H as <- <-. not_delivered.
    + injection H as <- <-. not_delivered.
Qed.

Lemma interruptible_try_except_Exception (body handler : M A) :
  interruptible body -> interruptible handler ->
  interruptible (try_except_Exception body handler).
Proof.
  intros Hb Hh s r s' H. unfold try_except_Exception in *.
  destruct (body s) as [r1 s1] eqn:E1.
  destruct (Hb s r1 s1 E1) as [(-> & Hs & Hs1) | (Hr1 & Hq & Hiff)].
  - cbn in H. injection H as <- <-. now left.
  - rewrite Hq. destruct r1 as [a|e|]; try (injection H as <- <-; not_delivered).
    destruct (is_Exception e); [|injection H as <- <-; not_delivered].
    destruct (Hh s1 r s' H) as [(-> & Hs1 & Hs') | (Hr & Hq' & Hiff')].
    + left. repeat split; auto. now rewrite Hiff.
    + not_delivered.
Qed.
End Interruptible.

Lemma interruptible_tick : interruptible tick.
Proof.
  intros s r s' H. unfold tick in H.
  destruct (sigint s) as [[|n]|] eqn:E; injection H as <- <-.
  - left. repeat split; congruence.
  - right. repeat split; try discriminate; try (now rewrite tick_quiet);
      cbn; congruence.
  - right. repeat split; auto; try discriminate; now rewrite tick_quiet.
Qed.

Lemma pure_update_sigint (f : state -> state) (s : state) :
  pure_update f -> sigint (f s) = sigint s.
Proof.
  intros Hf. assert (E : s = set_sigint (sigint s) s) by now destruct s.
  rewrite E at 1. now rewrite Hf.
Qed.

Lemma interruptible_modify (f : state -> state) :
  pure_update f -> interruptible (modify f).
Proof.
  intros Hf s r s' [= <- <-]. right. split; [discriminate|]. split.
  - unfold modify, quiet. now rewrite Hf.
  - now rewrite pure_update_sigint.
Qed.

Lemma interruptible_in_background (m : M unit) : interruptible (in_background m).
Proof.
  intros s r s' H. unfold in_background in *.
  change (set_sigint None (quiet s)) with (set_sigint None s).
  destruct (m (set_sigint None s)) as [r1 s1]. injection H as <- <-.
  right. repeat split; auto; discriminate.
Qed.

Lemma interruptible_SetMasterVolumeLevelScalar (x : float) :
  interruptible (SetMasterVolumeLevelScalar x).
Proof.
  intros s r s' H. unfold SetMasterVolumeLevelScalar in *.
  change (sink_faults (quiet s)) with (sink_faults s).
  destruct (sink_faults s) as [|[] rest]; injection H as <- <-;
    right; repeat split; auto; discriminate.
Qed.

(** ** C1: the integrators stay within their bounds *)

Lemma update_brightness_bounds (d : Z) (s : state) :
  brightness_in_bounds s ->
  post (update_brightness d) s
    (fun _ s' => brightness_in_bounds s' /\ volume s' = volume s).
Proof.
  intros Hb. unfold update_brightness.
  wp_run; cbn; auto; split; auto; apply clamp_unit_interval.
Qed.

Lemma set_system_volume_frame (v : Z) (s : state) :
  post (set_system_volume v) s
    (fun _ s' => brightness s' = brightness s /\ volume s' = volume s).
Proof.
  unfold set_system_volume. wp_run; cbn; auto.
Qed.

Lemma update_volume_bounds (d : Z) (s : state) :
  volume_in_bounds s ->
  post (update_volume d) s
    (fun _ s' => volume_in_bounds s' /\ brightness s' = brightness s).
Proof.
  intros Hv. unfold update_volume, volume_in_bounds in *.
  wp_run; cbn in *; auto; try (split; [lia | reflexivity]).
  eapply post_conseq; [apply set_system_volume_frame|].
  cbn. intros [[]|e|] s' [Hb' Hv']; try (split; [lia | congruence]).
  wp_run; cbn in *; (split; [lia | congruence]).
Qed.

Lemma apply_delta_bounds (kd : knob * Z) (s : state) :
  in_bounds s -> in_bounds (snd (apply_delta kd s)).
Proof.
  intros [Hb Hv]. destruct kd as [[] d]; cbn [apply_delta].
  - destruct (update_brightness_bounds d s Hb) as [Hb' Hv'].
    split; [exact Hb'|]. unfold volume_in_bounds in *. now rewrite Hv'.
  - destruct (update_volume_bounds d s Hv) as [Hv' Hb'].
    split; [|exact Hv']. unfold brightness_in_bounds in *. now rewrite Hb'.
Qed.

Lemma boot_in_bounds device faults sig : in_bounds (boot device faults sig).
Proof. repeat split; cbn; try reflexivity; unfold initial_volume; lia. Qed.

(** C1. Whatever raw step deltas are fed to [update_brightness] and
    [update_volume], in whatever order and however large, the stored
    brightness stays within [0.0, 1.0] and the stored volume within
    [0, 100]; this holds from the state the script starts in. *)
Theorem C1_integrators_stay_in_bounds (ds : list (knob * Z)) (s : state) :
  in_bounds s -> in_bounds (apply_deltas ds s).
Proof.
  revert s. induction ds as [|kd ds IH]; intros s Hs; cbn [apply_deltas]; [exact Hs|].
  apply IH. now apply apply_delta_bounds.
Qed.

Lemma C1_witness :
  in_bounds (apply_deltas [(Brightness, 1000); (Volume, -700); (Volume, 3)]
               (boot true [] None)).
Proof. apply C1_integrators_stay_in_bounds, boot_in_bounds. Defined.

(** ** Binary64 order, continued *)

Lemma SFcompare_antisym (x y : spec_float) :
  SFcompare y x = option_map CompOpp (SFcompare x y).
Proof.
  destruct x as [[]|[]| |[] mx ex], y as [[]|[]| |[] my ey]; cbn; try reflexivity.
  all: rewrite (Z.compare_antisym ex ey); destruct (ex ?= ey); cbn; try reflexivity.
  all: rewrite (Pos.compare_cont_antisym); cbn; now rewrite ?CompOpp_involutive.
Qed.

Lemma leb_not_gt (a b : float) : (a <=? b)%float = true -> Py.gt a b = false.
Proof.
  unfold Py.gt. rewrite ltb_spec, leb_spec. unfold SFltb, SFleb.
  rewrite (SFcompare_antisym (Prim2SF a) (Prim2SF b)).
  destruct (SFcompare (Prim2SF a) (Prim2SF b)) as [[]|]; cbn; congruence.
Qed.

Lemma small_ints_convert :
  forallb (fun n => match Py.float_of_int n with inr _ => true | inl _ => false end)
          small_ints = true.
Proof. vm_compute. reflexivity. Qed.

Lemma float_of_int_small (n : Z) :
  -200 <= n <= 200 -> Py.float_of_int n = inr (Py.float_of_int_raw n).
Proof.
  intros Hn.
  assert (Hin : In n small_ints).
  { unfold small_ints. apply in_map_iff. exists (Z.to_nat (n + 200)). split; [lia|].
    apply in_seq. lia. }
  pose proof (proj1 (forallb_forall _ _) small_ints_convert n Hin) as H.
  unfold Py.float_of_int in *. cbv zeta in *.
  destruct (is_infinity (Py.float_of_int_raw n)); [discriminate | reflexivity].
Qed.

Lemma float_of_int_error (n : Z) (e : exn) :
  Py.float_of_int n = inl e -> e = OverflowError.
Proof.
  unfold Py.float_of_int. cbv zeta.
  destruct (is_infinity (Py.float_of_int_raw n)); congruence.
Qed.

Lemma int_div_float_error (n : Z) (x : float) (e : exn) :
  Py.int_div_float n x = inl e -> is_Exception e = true.
Proof.
  unfold Py.int_div_float. destruct (Py.float_of_int n) eqn:E; [|discriminate].
  intros [= <-]. now rewrite (float_of_int_error _ _ E).
Qed.

Lemma clamp_in_unit (x : float) :
  (0 <=? clamp x 0 1)%float = true /\ (clamp x 0 1 <=? 1)%float = true.
Proof. apply clamp_unit_interval. Qed.

Lemma percent_of_defined (b : float) :
  (0 <=? b)%float = true -> (b <=? 1)%float = true -> exists z, percent_of b = inr z.
Proof.
  intros H0 H1. destruct (percent_defined b H0 H1) as (p & z & Hp & Hz).
  exists z. unfold percent_of. now rewrite Hp.
Qed.

(** ** The script's functions when no interrupt is pending *)

Lemma post_eq {A} (m : M A) (s : state) (X : outcome A * state) :
  post m s (fun r s' => (r, s') = X) -> m s = X.
Proof. unfold post. now destruct (m s). Qed.

Lemma post_of_eq {A} (m : M A) (s : state) r s' (Q : outcome A -> state -> Prop) :
  m s = (r, s') -> Q r s' -> post m s Q.
Proof. unfold post. now intros ->. Qed.

Lemma set_system_volume_quiet (vol : Z) (s : state) :
  sigint s = None -> set_system_volume vol s = (Ok tt, sink_push vol s).
Proof.
  intros Hq. apply post_eq. unfold set_system_volume, sink_push.
  wp_run_quiet; rewrite ?Hfaults; try reflexivity.
  apply int_div_float_error in Heqs0. congruence.
Qed.

Lemma sink_push_sigint vol s : sigint (sink_push vol s) = sigint s.
Proof.
  unfold sink_push. destruct (audio_available s); [|reflexivity].
  destruct (Py.int_div_float vol 100); [reflexivity|].
  now destruct (sink_faults s) as [|[] ?].
Qed.

Lemma sink_push_volume vol s : volume (sink_push vol s) = volume s.
Proof.
  unfold sink_push. destruct (audio_available s); [|reflexivity].
  destruct (Py.int_div_float vol 100); [reflexivity|].
  now destruct (sink_faults s) as [|[] ?].
Qed.

Lemma update_volume_quiet (d : Z) (s : state) :
  sigint s = None ->
  update_volume d s =
    let new := volume_after (volume s) d in
    if Z.abs (new - volume s) >? volume_threshold
    then (Ok tt, emit (EvPrint (MsgVolume new)) (sink_push new (set_volume new s)))
    else (Ok tt, set_volume new s).
Proof.
  intros Hq. apply post_eq. unfold update_volume, volume_after, clampZ.
  wp_run_quiet; cbn in *; rewrite Heqb; [|reflexivity].
  eapply post_of_eq; [apply set_system_volume_quiet; exact Hq|].
  wp_step. apply post_tick_quiet; [now rewrite sink_push_sigint|].
  wp_run_quiet. now rewrite sink_push_volume.
Qed.

Lemma update_brightness_quiet (d : Z) (s : state) :
  sigint s = None ->
  update_brightness d s =
    match brightness_after (brightness s) d with
    | inl e => (Raise e, s)
    | inr new =>
        if Py.gt (abs (new - brightness s)) brightness_threshold then
          let s' := emit (EvShow (pixels s) new)
                      (emit (EvSetBrightness new)
                         (set_pixels_brightness new (set_brightness new s))) in
          match percent_of new with
          | inl e => (Raise e, s')
          | inr z => (Ok tt, emit (EvPrint (MsgBrightness z)) s')
          end
        else (Ok tt, set_brightness new s)
    end.
Proof.
  intros Hq. apply post_eq. unfold update_brightness, brightness_after, percent_of.
  wp_run_quiet; unfold clamp; cbn in *;
    repeat match goal with H : ?x = _ |- context [?x] => rewrite H end;
    reflexivity.
Qed.

(** ** Every function of the script is interruptible *)

Lemma ordinary_float_of_int (n : Z) : ordinary_error (Py.float_of_int n).
Proof. intros e H. now rewrite (float_of_int_error n e H). Qed.

Lemma ordinary_int_mul_float (n : Z) (x : float) : ordinary_error (Py.int_mul_float n x).
Proof.
  intros e. unfold Py.int_mul_float.
  destruct (Py.float_of_int n) eqn:E; [|discriminate].
  intros [= <-]. now apply (ordinary_float_of_int n).
Qed.

Lemma ordinary_float_mul_int (x : float) (n : Z) : ordinary_error (Py.float_mul_int x n).
Proof.
  intros e. unfold Py.float_mul_int.
  destruct (Py.float_of_int n) eqn:E; [|discriminate].
  intros [= <-]. now apply (ordinary_float_of_int n).
Qed.

Lemma ordinary_int_div_float (n : Z) (x : float) : ordinary_error (Py.int_div_float n x).
Proof. intros e. apply int_div_float_error. Qed.

Lemma ordinary_int_of_float (x : float) : ordinary_error (Py.int_of_float x).
Proof.
  intros e. unfold Py.int_of_float.
  destruct (Prim2SF x); intros [= <-]; reflexivity.
Qed.

Lemma ordinary_index (len : nat) (i : Z) : ordinary_error (Py.index len i).
Proof.
  intros e. unfold Py.index.
  repeat match goal with |- context [if ?b then _ else _] => destruct b end;
    intros [= <-]; reflexivity.
Qed.

Lemma ordinary_getitem {A} (l : list A) (i : Z) : ordinary_error (Py.getitem l i).
Proof.
  intros e. unfold Py.getitem. destruct (Py.index (length l) i) eqn:E.
  - intros [= <-]. now apply (ordinary_index (length l) i).
  - destruct (l !! n); intros [= <-]. reflexivity.
Qed.

Lemma ordinary_setitem {A} (l : list A) (i : Z) (x : A) :
  ordinary_error (Py.setitem l i x).
Proof.
  intros e. unfold Py.setitem. destruct (Py.index (length l) i) eqn:E; [|discriminate].
  intros [= <-]. now apply (ordinary_index (length l) i).
Qed.

Create HintDb interrupt.
#[local] Hint Resolve ordinary_int_mul_float ordinary_float_mul_int
  ordinary_int_div_float ordinary_int_of_float ordinary_index
  ordinary_getitem ordinary_setitem : interrupt.

Ltac interrupt_rules :=
  repeat first
    [ apply interruptible_bind; [|intros ?]
    | apply interruptible_tick
    | apply interruptible_ret
    | apply interruptible_raise; reflexivity
    | apply interruptible_gets; intros ? ?; reflexivity
    | apply interruptible_modify; intros ? ?; reflexivity
    | apply interruptible_lift; solve [auto with interrupt]
    | apply interruptible_try_except_Exception
    | apply interruptible_in_background
    | apply interruptible_SetMasterVolumeLevelScalar
    | match goal with
      | |- interruptible (if ?b then _ else _) => destruct b
      | |- interruptible (match ?x with _ => _ end) => destruct x
      end
    | solve [auto with interrupt] ].

Lemma interruptible_set_system_volume (vol : Z) : interruptible (set_system_volume vol).
Proof. unfold set_system_volume, print. interrupt_rules. Qed.
#[local] Hint Resolve interruptible_set_system_volume : interrupt.

Lemma interruptible_update_brightness (d : Z) : interruptible (update_brightness d).
Proof.
  unfold update_brightness, pixels_set_brightness, pixels_show, print.
  interrupt_rules.
Qed.

Lemma interruptible_update_volume (d : Z) : interruptible (update_volume d).
Proof. unfold update_volume, print. interrupt_rules. Qed.

Lemma interruptible_toggle_led (i : Z) : interruptible (toggle_led i).
Proof.
  unfold toggle_led, pixels_setitem, pixels_show, print. interrupt_rules.
Qed.
#[local] Hint Resolve interruptible_update_brightness interruptible_update_volume
  interruptible_toggle_led : interrupt.

Lemma interruptible_setup_from (rest : list switch) (i : nat) :
  interruptible (setup_from i rest).
Proof.
  revert i. induction rest as [|sw rest IH]; intros i; cbn [setup_from];
    interrupt_rules.
Qed.
#[local] Hint Resolve interruptible_setup_from : interrupt.

Lemma interruptible_press_all (ks : list nat) : interruptible (press_all ks).
Proof.
  induction ks as [|k ks IH]; cbn [press_all]; unfold press; interrupt_rules.
Qed.
#[local] Hint Resolve interruptible_press_all : interrupt.

Lemma interruptible_environment (a : activity) : interruptible (environment a).
Proof. unfold environment. interrupt_rules. Qed.

Lemma interruptible_poll_brightness (last : Z) : interruptible (poll_brightness last).
Proof. unfold poll_brightness. interrupt_rules. Qed.

Lemma interruptible_poll_volume (last : Z) : interruptible (poll_volume last).
Proof. unfold poll_volume. interrupt_rules. Qed.
#[local] Hint Resolve interruptible_environment interruptible_poll_brightness
  interruptible_poll_volume : interrupt.

Lemma interruptible_control_loop (acts : list activity) (lb lv : Z) :
  interruptible (control_loop acts lb lv).
Proof.
  revert lb lv. induction acts as [|a acts IH]; intros lb lv; cbn [control_loop].
  - intros s r s' [= <- <-]. not_delivered.
  - unfold sleep. interrupt_rules.
Qed.

Lemma interruptible_init_audio : interruptible init_audio.
Proof. unfold init_audio, open_audio_endpoint, print. interrupt_rules. Qed.

Lemma interruptible_startup : interruptible startup.
Proof.
  unfold startup, setup_switch_handlers, pixels_fill, pixels_show, print.
  interrupt_rules.
Qed.

Lemma interruptible_shutdown : interruptible shutdown.
Proof. unfold shutdown, pixels_fill, pixels_show, print. interrupt_rules. Qed.

(** A run that returns normally is the uninterrupted run, up to the
    countdown. *)
Lemma normal_run {A} (m : M A) (s s' : state) (a : A) :
  interruptible m -> m s = (Ok a, s') -> m (quiet s) = (Ok a, quiet s').
Proof.
  intros Hm H. destruct (Hm s _ _ H) as [(? & _) | (_ & Hq & _)]; [discriminate|].
  exact Hq.
Qed.

Lemma update_brightness_normal (d : Z) (s s' : state) :
  update_brightness d s = (Ok tt, s') ->
  update_brightness d (quiet s) = (Ok tt, quiet s').
Proof. apply normal_run, interruptible_update_brightness. Qed.

Lemma update_volume_normal (d : Z) (s s' : state) :
  update_volume d s = (Ok tt, s') ->
  update_volume d (quiet s) = (Ok tt, quiet s').
Proof. apply normal_run, interruptible_update_volume. Qed.

Lemma volume_after_bounds (old d : Z) : 0 <= volume_after old d <= 100.
Proof. unfold volume_after, clampZ. lia. Qed.

Lemma int_div_float_percent (v : Z) :
  0 <= v <= 100 -> Py.int_div_float v 100 = inr (Py.float_of_int_raw v / 100)%float.
Proof.
  intros Hv. unfold Py.int_div_float. now rewrite float_of_int_small by lia.
Qed.

Lemma brightness_after_in_unit (old : float) (d : Z) (new : float) :
  brightness_after old d = inr new ->
  (0 <=? new)%float = true /\ (new <=? 1)%float = true.
Proof.
  unfold brightness_after. destruct (Py.int_mul_float d brightness_step); [discriminate|].
  intros [= <-]. apply clamp_in_unit.
Qed.

(** ** C2: updates above the threshold *)

(** C2, amended. When the change exceeds the threshold, [update_brightness]
    stores [clamp(old + delta * 0.02, 0.0, 1.0)], hands that value to the
    strip as its brightness scalar and commits the strip; [update_volume]
    stores [clamp(old + delta * 2, 0, 100)] and calls [set_system_volume],
    which pushes [new / 100.0] to the audio endpoint when audio is
    available and pushes nothing when it is not.  Both calls return
    normally when no interrupt is pending. *)
Theorem C2_updates_above_threshold (s : state) (d : Z) :
  (forall new,
     brightness_after (brightness s) d = inr new ->
     Py.gt (abs (new - brightness s)) brightness_threshold = true ->
     (sigint s = None -> exists s', update_brightness d s = (Ok tt, s')) /\
     (forall s', update_brightness d s = (Ok tt, s') ->
        brightness s' = new /\
        pixels_brightness s' = new /\
        exists z, percent_of new = inr z /\
          trace s' = trace s ++ [EvSetBrightness new; EvShow (pixels s) new;
                                 EvPrint (MsgBrightness z)])) /\
  (let new := volume_after (volume s) d in
   Z.abs (new - volume s) > volume_threshold ->
     (sigint s = None -> exists s', update_volume d s = (Ok tt, s')) /\
     (forall s', update_volume d s = (Ok tt, s') ->
        volume s' = new /\
        trace s' = trace s
          ++ (if audio_available s
              then EvSinkSet (Py.float_of_int_raw new / 100)
                   :: (if sink_fails s then [EvPrint MsgErrorSettingVolume] else [])
              else [])
          ++ [EvPrint (MsgVolume new)])).
Proof.
  split.
  - intros new Hnew Hgt.
    destruct (brightness_after_in_unit _ _ _ Hnew) as [H0 H1].
    destruct (percent_of_defined new H0 H1) as [z Hz].
    assert (Hrun : forall s0, sigint s0 = None -> brightness s0 = brightness s ->
              update_brightness d s0 =
                (Ok tt, emit (EvPrint (MsgBrightness z))
                          (emit (EvShow (pixels s0) new)
                             (emit (EvSetBrightness new)
                                (set_pixels_brightness new (set_brightness new s0)))))).
    { intros s0 Hq Hb. rewrite update_brightness_quiet by exact Hq.
      rewrite Hb, Hnew, Hgt. cbv zeta. now rewrite Hz. }
    split.
    + intros Hq. eexists. now apply Hrun.
    + intros s' H. apply update_brightness_normal in H.
      rewrite (Hrun (quiet s)) in H by reflexivity.
      apply (f_equal snd) in H. cbn [snd] in H.
      apply (f_equal brightness) in H as Hb.
      apply (f_equal pixels_brightness) in H as Hp.
      apply (f_equal trace) in H as Ht. cbn in Hb, Hp, Ht.
      repeat split; try congruence. exists z. split; [exact Hz|].
      rewrite <- Ht. now rewrite <- !app_assoc.
  - intros new Hgt.
    assert (Hrun : forall s0, sigint s0 = None -> volume s0 = volume s ->
              update_volume d s0 =
                (Ok tt, emit (EvPrint (MsgVolume new)) (sink_push new (set_volume new s0)))).
    { intros s0 Hq Hv. rewrite update_volume_quiet by exact Hq. cbv zeta.
      rewrite Hv. fold new. apply Z.gtb_gt in Hgt. now rewrite Hgt. }
    split.
    + intros Hq. eexists. now apply Hrun.
    + intros s' H. apply update_volume_normal in H.
      rewrite (Hrun (quiet s)) in H by reflexivity.
      apply (f_equal snd) in H. cbn [snd] in H.
      apply (f_equal volume) in H as Hv.
      apply (f_equal trace) in H as Ht.
      unfold sink_push, sink_fails in *. cbn in Hv, Ht.
      rewrite (int_div_float_percent new) in * by apply volume_after_bounds.
      destruct (audio_available s); [destruct (sink_faults s) as [|[] ?]|];
        cbn in Hv, Ht; (split; [congruence|]); rewrite <- Ht;
        now rewrite <- ?app_assoc.
Qed.

Lemma C2_witness :
  let s := snd (init_audio (boot true [true] None)) in
  (exists s', update_brightness 5 s = (Ok tt, s')) /\
  (exists s', update_volume 5 s = (Ok tt, s')).
Proof.
  intros s. destruct (C2_updates_above_threshold s 5) as [Hb Hv]. split.
  - eapply Hb; [vm_compute; reflexivity | vm_compute; reflexivity | reflexivity].
  - apply Hv; [vm_compute; reflexivity | reflexivity].
Defined.

(** C2 as stated fails when the audio endpoint could not be opened at
    startup: the volume goes from 50 to 52, above the threshold, and
    nothing is pushed to the endpoint. *)
Lemma C2_counterexample :
  let s := snd (init_audio (boot false [] None)) in
  in_bounds s /\
  Z.abs (volume_after (volume s) 1 - volume s) > volume_threshold /\
  exists s', update_volume 1 s = (Ok tt, s') /\
    volume s' = 52 /\
    forall x, ~ In (EvSinkSet x) (trace s').
Proof.
  intros s. split; [|split].
  - subst s. repeat split; vm_compute; congruence.
  - vm_compute. reflexivity.
  - eexists. split; [vm_compute; reflexivity|]. split; [reflexivity|].
    intros x [H|[H|[H|[]]]]; discriminate.
Qed.

(** ** C3: nothing is pushed below the threshold *)

Lemma update_brightness_silent (d : Z) (s : state) (new : float) :
  brightness_after (brightness s) d = inr new ->
  Py.gt (abs (new - brightness s)) brightness_threshold = false ->
  post (update_brightness d) s
    (fun _ s' => trace s' = trace s /\ pixels_brightness s' = pixels_brightness s /\
                 pixels s' = pixels s).
Proof.
  unfold brightness_after, clamp.
  destruct (Py.int_mul_float d brightness_step) as [e|t] eqn:Ht; [discriminate|].
  intros [= <-] Hgt. unfold update_brightness. rewrite Ht.
  wp_run; cbn in *; auto; congruence.
Qed.

Lemma update_volume_silent (d : Z) (s : state) :
  Z.abs (volume_after (volume s) d - volume s) <= volume_threshold ->
  post (update_volume d) s
    (fun _ s' => trace s' = trace s /\ sink_faults s' = sink_faults s).
Proof.
  unfold volume_after, clampZ. intros Hle. unfold update_volume.
  wp_run; cbn in *; auto. lia.
Qed.

(** C3. A delta whose resulting change is at most the threshold (0.01 for
    the brightness, 1 for the volume) causes no hardware or host call:
    [update_brightness] neither sets the strip's brightness scalar nor
    commits, [update_volume] does not call the audio endpoint; the trace
    of outside calls is left as it was, however the call ends. *)
Theorem C3_no_push_below_threshold (s : state) (d : Z) :
  (forall new,
     brightness_after (brightness s) d = inr new ->
     (abs (new - brightness s) <=? brightness_threshold)%float = true ->
     let s' := snd (update_brightness d s) in
     trace s' = trace s /\ pixels_brightness s' = pixels_brightness s) /\
  (Z.abs (volume_after (volume s) d - volume s) <= volume_threshold ->
     let s' := snd (update_volume d s) in
     trace s' = trace s /\ sink_faults s' = sink_faults s).
Proof.
  split.
  - intros new Hnew Hle. apply leb_not_gt in Hle.
    destruct (update_brightness_silent d s new Hnew Hle) as (Ht & Hp & _). auto.
  - intros Hle. exact (update_volume_silent d s Hle).
Qed.

Lemma C3_witness :
  let s := set_brightness 1 (set_volume 100 (boot true [] (Some 3%nat))) in
  trace (snd (update_brightness 2 s)) = trace s /\
  trace (snd (update_volume 2 s)) = trace s.
Proof.
  intros s. destruct (C3_no_push_below_threshold s 2) as [Hb Hv]. split.
  - eapply Hb; vm_compute; reflexivity.
  - apply Hv. vm_compute. discriminate.
Defined.

(** ** C4: what an update below the threshold leaves behind *)

(** C4 as stated fails.  Two brightness updates, of -24 and -1 steps, take
    the stored brightness from 0.5 to about 1.7e-17; one more step down
    clamps it to 0.0, a change below the threshold, and the stored value
    is overwritten all the same while the strip keeps the old scalar.
    Likewise a stored volume of 99 becomes 100 on one step up. *)
Lemma C4_counterexample :
  let s := apply_deltas [(Brightness, -24); (Brightness, -1)]
             (snd (init_audio (boot true [] None))) in
  let v := set_volume 99 (boot true [] None) in
  (in_bounds s /\
   brightness_after (brightness s) (-1) = inr 0%float /\
   (abs (0 - brightness s) <=? brightness_threshold)%float = true /\
   exists s', update_brightness (-1) s = (Ok tt, s') /\
     brightness s' <> brightness s /\ pixels_brightness s' = brightness s) /\
  (in_bounds v /\
   Z.abs (volume_after (volume v) 1 - volume v) <= volume_threshold /\
   exists v', update_volume 1 v = (Ok tt, v') /\ volume v' <> volume v).
Proof.
  intros s v. split.
  - split; [|split; [|split]].
    + repeat split; vm_compute; congruence.
    + vm_compute. reflexivity.
    + vm_compute. reflexivity.
    + eexists. split; [vm_compute; reflexivity|]. split; [|vm_compute; reflexivity].
      intros H. apply (f_equal (fun x => (x =? 0)%float)) in H.
      vm_compute in H. discriminate.
  - split; [|split].
    + repeat split; vm_compute; congruence.
    + vm_compute. discriminate.
    + eexists. split; [vm_compute; reflexivity|]. vm_compute. discriminate.
Qed.

Lemma volume_after_even (old d : Z) :
  Z.even old = true -> Z.even (volume_after old d) = true.
Proof.
  intros He. apply Z.even_spec in He as [k ->].
  apply Z.even_spec. unfold volume_after, clampZ, volume_step.
  destruct (Z.max_spec 0 (Z.min 100 (2 * k + d * 2))) as [[_ ->]|[_ ->]].
  - destruct (Z.min_spec 100 (2 * k + d * 2)) as [[_ ->]|[_ ->]].
    + now exists 50.
    + exists (k + d). lia.
  - now exists 0.
Qed.

Lemma even_close (a b : Z) :
  Z.even a = true -> Z.even b = true -> Z.abs (a - b) <= 1 -> a = b.
Proof.
  intros Ha Hb. apply Z.even_spec in Ha as [k ->]. apply Z.even_spec in Hb as [j ->]. lia.
Qed.

(** C4, amended. Below the threshold the call pushes nothing and changes
    nothing but the stored parameter, which it sets to the clamped value,
    at most the threshold away from the old one and not always equal to
    it; the stored volume is left as it was whenever the old volume is
    even.  The call returns normally when no interrupt is pending. *)
Theorem C4_below_threshold_frame (s : state) (d : Z) :
  (forall new,
     brightness_after (brightness s) d = inr new ->
     (abs (new - brightness s) <=? brightness_threshold)%float = true ->
     (sigint s = None -> update_brightness d s = (Ok tt, set_brightness new s)) /\
     (forall s', update_brightness d s = (Ok tt, s') ->
        quiet s' = set_brightness new (quiet s))) /\
  (let new := volume_after (volume s) d in
   Z.abs (new - volume s) <= volume_threshold ->
     (sigint s = None -> update_volume d s = (Ok tt, set_volume new s)) /\
     (forall s', update_volume d s = (Ok tt, s') ->
        quiet s' = set_volume new (quiet s)) /\
     (Z.even (volume s) = true -> new = volume s)).
Proof.
  split.
  - intros new Hnew Hle. apply leb_not_gt in Hle.
    assert (Hrun : forall s0, sigint s0 = None -> brightness s0 = brightness s ->
              update_brightness d s0 = (Ok tt, set_brightness new s0)).
    { intros s0 Hq Hb. rewrite update_brightness_quiet by exact Hq.
      now rewrite Hb, Hnew, Hle. }
    split; [intros Hq; now apply Hrun|].
    intros s' H. apply update_brightness_normal in H.
    rewrite (Hrun (quiet s)) in H by reflexivity. congruence.
  - intros new Hle.
    assert (Hrun : forall s0, sigint s0 = None -> volume s0 = volume s ->
              update_volume d s0 = (Ok tt, set_volume new s0)).
    { intros s0 Hq Hv. rewrite update_volume_quiet by exact Hq. cbv zeta.
      rewrite Hv. fold new.
      destruct (Z.gtb_spec (Z.abs (new - volume s)) volume_threshold); [lia | reflexivity]. }
    split; [intros Hq; now apply Hrun|]. split.
    + intros s' H. apply update_volume_normal in H.
      rewrite (Hrun (quiet s)) in H by reflexivity. congruence.
    + intros He. apply even_close; [now apply volume_after_even | exact He | exact Hle].
Qed.

Lemma C4_witness :
  let s := set_brightness 1 (set_volume 100 (boot true [] None)) in
  update_brightness 2 s = (Ok tt, set_brightness 1 s) /\
  update_volume 2 s = (Ok tt, set_volume 100 s).
Proof.
  intros s. destruct (C4_below_threshold_frame s 2) as [Hb Hv]. split.
  - apply (Hb 1%float); [vm_compute; reflexivity | vm_compute; reflexivity | reflexivity].
  - apply Hv; [vm_compute; discriminate | reflexivity].
Defined.

(** ** Subscripts *)

Lemma index_nat (len k : nat) : (k < len)%nat -> Py.index len (Z.of_nat k) = inr k.
Proof.
  intros H. unfold Py.index.
  destruct (Z.leb_spec 0 (Z.of_nat k)); [|lia].
  destruct (Z.ltb_spec (Z.of_nat k) (Z.of_nat len)); [|lia].
  cbn. now rewrite Nat2Z.id.
Qed.

Lemma getitem_nat {A} (l : list A) (k : nat) (x : A) :
  l !! k = Some x -> Py.getitem l (Z.of_nat k) = inr x.
Proof.
  intros H. unfold Py.getitem.
  rewrite index_nat by (now apply lookup_lt_Some in H). now rewrite H.
Qed.

Lemma setitem_nat {A} (l : list A) (k : nat) (x : A) :
  (k < length l)%nat -> Py.setitem l (Z.of_nat k) x = inr (<[k:=x]> l).
Proof. intros H. unfold Py.setitem. now rewrite index_nat. Qed.

(** A subscript that does not raise names a position of the list. *)
Lemma index_in_range (len : nat) (i : Z) (n : nat) :
  Py.index len i = inr n -> (n < len)%nat.
Proof.
  unfold Py.index.
  destruct (Z.leb_spec 0 i), (Z.ltb_spec i (Z.of_nat len)); cbn; try (intros [= <-]; lia).
  all: destruct (Z.leb_spec (- Z.of_nat len) i), (Z.ltb_spec i 0); cbn;
    try discriminate; intros [= <-]; lia.
Qed.

Lemma led_colors_lookup (k : nat) :
  (k < NUM_LEDS)%nat -> led_colors !! k = Some (default black (led_colors !! k)).
Proof.
  intros H. destruct (led_colors !! k) eqn:E; [reflexivity|].
  apply lookup_ge_None in E. cbn in E. unfold NUM_LEDS in H. lia.
Qed.

(** ** toggle_led *)

(** Resolving the subscripts met along a run, given what is known of the
    lists. *)
Ltac subscripts :=
  cbn in *;
  repeat match goal with
  | H : Py.getitem ?l (Z.of_nat ?k) = _, L : ?l !! ?k = Some _ |- _ =>
      rewrite (getitem_nat l k _ L) in H
  | H : Py.setitem ?l (Z.of_nat ?k) _ = _, L : (?k < length ?l)%nat |- _ =>
      rewrite (setitem_nat l k _ L) in H
  | H : Py.index ?n (Z.of_nat ?k) = _ |- _ =>
      rewrite (index_nat n k) in H by (cbn in *; lia)
  | H : inr _ = inr _ |- _ => injection H as H; subst
  | H : inr _ = inl _ |- _ => discriminate H
  end.

Lemma toggle_led_quiet (k : nat) (on : bool) (s : state) :
  sigint s = None ->
  (k < NUM_LEDS)%nat ->
  led_states s !! k = Some on ->
  length (pixels s) = NUM_LEDS ->
  toggle_led (Z.of_nat k) s = (Ok tt, toggled k on s).
Proof.
  intros Hq Hk Hon Hpx. apply post_eq. unfold toggle_led, toggled, pixels_setitem.
  pose proof (lookup_lt_Some _ _ _ Hon) as Hlen.
  pose proof (led_colors_lookup k Hk) as Hc.
  pose proof (list_lookup_insert_eq (led_states s) k (negb on) Hlen) as Hnew.
  wp_run_quiet; subscripts;
    repeat match goal with H : negb _ = _ |- _ => rewrite H end; reflexivity.
Qed.

Lemma render_insert (l : list bool) (k : nat) (b : bool) :
  (k < NUM_LEDS)%nat ->
  render (<[k:=b]> l) =
  <[k:=if b then default black (led_colors !! k) else black]> (render l).
Proof.
  intros Hk. unfold render.
  rewrite (insert_zip_with (fun (on : bool) (c : rgb) => if on then c else black)
             l led_colors k b (default black (led_colors !! k))).
  f_equal. symmetry. apply list_insert_id. now apply led_colors_lookup.
Qed.

Lemma render_lookup (l : list bool) (k : nat) (on : bool) :
  (k < NUM_LEDS)%nat -> l !! k = Some on ->
  render l !! k = Some (if on then default black (led_colors !! k) else black).
Proof.
  intros Hk Hon. unfold render. rewrite lookup_zip_with, Hon. cbn.
  now rewrite (led_colors_lookup k Hk).
Qed.

Lemma length_render (l : list bool) :
  length l = NUM_LEDS -> length (render l) = NUM_LEDS.
Proof. intros H. unfold render. rewrite length_zip_with. rewrite H. reflexivity. Qed.

Lemma toggled_consistent (k : nat) (on : bool) (s : state) :
  (k < NUM_LEDS)%nat -> led_states s !! k = Some on ->
  consistent s -> consistent (toggled k on s).
Proof.
  intros Hk Hon [Hlen Hpx]. split; cbn.
  - now rewrite length_insert.
  - rewrite Hpx. symmetry. now apply render_insert.
Qed.

(** Toggling twice gives back the LED states and the pixel buffer. *)
Lemma toggled_twice (k : nat) (on : bool) (s : state) :
  (k < NUM_LEDS)%nat -> led_states s !! k = Some on -> consistent s ->
  led_states (toggled k (negb on) (toggled k on s)) = led_states s /\
  pixels (toggled k (negb on) (toggled k on s)) = pixels s.
Proof.
  intros Hk Hon [Hlen Hpx]. cbn. rewrite !list_insert_insert_eq, negb_involutive.
  split; [now apply list_insert_id|].
  apply list_insert_id. rewrite Hpx. now apply render_lookup.
Qed.

(** ** A Pressed edge *)

Lemma wired_lookup (k : nat) :
  (k < NUM_LEDS)%nat ->
  exists p, wired_switches !! k = Some (mkSwitch p (Some (ToggleLambda (Z.of_nat k)))).
Proof.
  intros Hk. unfold wired_switches. rewrite list_lookup_imap.
  destruct (SWITCH_PINS !! k) as [p|] eqn:E; [now exists p|].
  apply lookup_ge_None in E. cbn in E. unfold NUM_LEDS in Hk. lia.
Qed.

Lemma wired_lookup_None (k : nat) : (NUM_LEDS <= k)%nat -> wired_switches !! k = None.
Proof.
  intros Hk. apply lookup_ge_None. unfold wired_switches.
  rewrite length_imap. exact Hk.
Qed.

Lemma press_wired (k : nat) (on : bool) (s : state) :
  switches s = wired_switches ->
  (k < NUM_LEDS)%nat ->
  led_states s !! k = Some on ->
  length (pixels s) = NUM_LEDS ->
  press k s = (Ok tt, set_sigint (sigint s) (toggled k on (quiet s))).
Proof.
  intros Hw Hk Hon Hpx. unfold press, in_background, bind, gets.
  change (switches (set_sigint None s)) with (switches s). rewrite Hw.
  destruct (wired_lookup k Hk) as [p ->]. cbn [when_pressed call].
  now rewrite (toggle_led_quiet k on (set_sigint None s)).
Qed.

Lemma press_unwired (k : nat) (s : state) :
  switches s = wired_switches -> (NUM_LEDS <= k)%nat ->
  press k s = (Ok tt, set_sigint (sigint s) (quiet s)).
Proof.
  intros Hw Hk. unfold press, in_background, bind, gets.
  change (switches (set_sigint None s)) with (switches s).
  now rewrite Hw, wired_lookup_None.
Qed.

(** ** Frames *)

Lemma set_system_volume_untouched (vol : Z) (s : state) :
  post (set_system_volume vol) s (fun _ s' => but_sink s' = but_sink s).
Proof. unfold set_system_volume. wp_run; reflexivity. Qed.

Lemma update_brightness_untouched (d : Z) (s : state) :
  post (update_brightness d) s (fun _ s' => but_brightness s' = but_brightness s).
Proof. unfold update_brightness. wp_run; reflexivity. Qed.

Lemma update_volume_untouched (d : Z) (s : state) :
  post (update_volume d) s
    (fun _ s' => but_volume s' = but_volume s /\
                 (volume s' = volume s \/ volume s' = volume_after (volume s) d)).
Proof.
  unfold update_volume, volume_after, clampZ.
  wp_run; try (split; [reflexivity | cbn; auto]).
  eapply post_conseq; [apply set_system_volume_untouched|].
  intros r s' Hs'.
  pose proof (f_equal volume Hs') as Hv. cbn in Hv.
  pose proof (f_equal (set_volume 0) Hs') as Hf.
  change (but_volume s' = but_volume s) in Hf.
  destruct r; wp_run; (split; [exact Hf | right; exact Hv]).
Qed.

Lemma count_probes_app (l1 l2 : list event) :
  count_probes (l1 ++ l2) = (count_probes l1 + count_probes l2)%nat.
Proof. induction l1 as [|[] l1 IH]; cbn; auto. Qed.

Lemma probes_emit (e : event) (s : state) :
  probes (emit e s) = (probes s + count_probes [e])%nat.
Proof. unfold probes. cbn. apply count_probes_app. Qed.

(** None of the three opens the audio endpoint. *)
Lemma set_system_volume_probes (vol : Z) (s : state) :
  post (set_system_volume vol) s (fun _ s' => probes s' = probes s).
Proof.
  unfold set_system_volume. wp_run; unfold probes; cbn;
    rewrite ?count_probes_app; cbn; lia.
Qed.

Lemma update_brightness_probes (d : Z) (s : state) :
  post (update_brightness d) s (fun _ s' => probes s' = probes s).
Proof.
  unfold update_brightness. wp_run; unfold probes; cbn;
    rewrite ?count_probes_app; cbn; lia.
Qed.

Lemma update_volume_probes (d : Z) (s : state) :
  post (update_volume d) s (fun _ s' => probes s' = probes s).
Proof.
  unfold update_volume. wp_run; try reflexivity.
  eapply post_conseq; [apply set_system_volume_probes|].
  intros r s' Hs'. change (probes s' = probes s) in Hs'.
  destruct r; wp_run; unfold probes in *; cbn;
    rewrite ?count_probes_app; cbn; lia.
Qed.

Lemma invariant_signal (sg : option nat) (s : state) :
  invariant s -> invariant (set_sigint sg s).
Proof. intros []. now constructor. Qed.

Lemma invariant_quiet (s : state) : invariant (quiet s) -> invariant s.
Proof. intros []. now constructor. Qed.

Lemma started_spec device faults sig lasts s :
  (init_audio ;; startup) (boot device faults sig) = (Ok lasts, s) ->
  quiet s = started device faults /\ lasts = (0, 0).
Proof.
  intros H. apply normal_run in H.
  2:{ apply interruptible_bind; [apply interruptible_init_audio|].
      intros _. apply interruptible_startup. }
  change (quiet (boot device faults sig)) with (boot device faults None) in H.
  unfold started. rewrite H. split; [reflexivity|].
  apply (f_equal fst) in H.
  destruct device, faults as [|[] rest]; vm_compute in H; congruence.
Qed.

Lemma started_invariant device faults : invariant (started device faults).
Proof.
  destruct device, faults as [|[] rest]; constructor; repeat split;
    vm_compute; congruence.
Qed.

(** ** The invariant of the running states *)

Ltac field f H :=
  let E := fresh "E" in
  pose proof (f_equal f H) as E; cbn in E.

Lemma rotate_range (steps turned : Z) :
  - MAX_STEPS <= rotate steps turned <= MAX_STEPS.
Proof. unfold rotate, MAX_STEPS. lia. Qed.

Lemma consistent_lookup (s : state) (k : nat) :
  consistent s -> (k < NUM_LEDS)%nat -> exists on, led_states s !! k = Some on.
Proof.
  intros [Hlen _] Hk. destruct (led_states s !! k) as [on|] eqn:E; [now exists on|].
  apply lookup_ge_None in E. lia.
Qed.

Lemma consistent_pixels_length (s : state) :
  consistent s -> length (pixels s) = NUM_LEDS.
Proof. intros [Hlen ->]. now apply length_render. Qed.

Lemma press_invariant (k : nat) (s : state) :
  invariant s -> invariant (snd (press k s)).
Proof.
  intros Hinv. pose proof Hinv as [Hc Hw Hb He Heb Hev Ha Hp].
  destruct (Nat.lt_ge_cases k NUM_LEDS) as [Hk|Hk].
  - destruct (consistent_lookup s k Hc Hk) as [on Hon].
    rewrite (press_wired k on s Hw Hk Hon (consistent_pixels_length s Hc)).
    cbn [snd]. apply invariant_signal.
    constructor; try assumption.
    + now apply toggled_consistent.
    + unfold toggled. rewrite !probes_emit. destruct on; cbn; unfold probes in *; cbn; lia.
  - rewrite (press_unwired k s Hw Hk). cbn [snd].
    apply invariant_signal. now constructor.
Qed.

Lemma update_brightness_invariant (d : Z) (s : state) r s' :
  update_brightness d s = (r, s') -> invariant s -> invariant s'.
Proof.
  intros H [[Hlen Hpx] Hw [Hb Hv] He Heb Hev Ha Hp].
  pose proof (post_elim _ _ _ _ _ H (update_brightness_probes d s)) as Hp'.
  pose proof (post_elim _ _ _ _ _ H (update_brightness_untouched d s)) as Hf.
  pose proof (post_elim _ _ _ _ _ H (update_brightness_bounds d s Hb)) as [Hb' _].
  cbv beta in Hf.
  field led_states Hf. field pixels Hf. field switches Hf. field volume Hf.
  field encoder_brightness Hf. field encoder_volume Hf.
  field audio_available Hf. field audio_device Hf.
  constructor.
  - split; congruence.
  - congruence.
  - split; [exact Hb'|]. unfold volume_in_bounds in *. now rewrite E2.
  - now rewrite E2.
  - now rewrite E3.
  - now rewrite E4.
  - congruence.
  - cbv beta in Hp'. congruence.
Qed.

Lemma update_volume_invariant (d : Z) (s : state) r s' :
  update_volume d s = (r, s') -> invariant s -> invariant s'.
Proof.
  intros H [[Hlen Hpx] Hw [Hb Hv] He Heb Hev Ha Hp].
  pose proof (post_elim _ _ _ _ _ H (update_volume_probes d s)) as Hp'.
  pose proof (post_elim _ _ _ _ _ H (update_volume_untouched d s)) as [Hf Hnew].
  pose proof (post_elim _ _ _ _ _ H (update_volume_bounds d s Hv)) as [Hv' _].
  cbv beta in Hf.
  field led_states Hf. field pixels Hf. field switches Hf. field brightness Hf.
  field encoder_brightness Hf. field encoder_volume Hf.
  field audio_available Hf. field audio_device Hf.
  constructor.
  - split; congruence.
  - congruence.
  - split; [|exact Hv']. unfold brightness_in_bounds in *. now rewrite E2.
  - destruct Hnew as [-> | ->]; [exact He | now apply volume_after_even].
  - now rewrite E3.
  - now rewrite E4.
  - congruence.
  - cbv beta in Hp'. congruence.
Qed.

Theorem running_invariant (s : state) : running s -> invariant s.
Proof.
  induction 1 as [device faults sig lasts s H | sg s _ IH | s _ IH
                 | turned s _ IH | turned s _ IH | k s _ IH
                 | d s s' _ IH H | d s s' _ IH H].
  - apply invariant_quiet. destruct (started_spec _ _ _ _ _ H) as [-> _].
    apply started_invariant.
  - now apply invariant_signal.
  - destruct IH. constructor; try assumption.
    rewrite probes_emit. cbn. lia.
  - destruct IH. constructor; try assumption. apply rotate_range.
  - destruct IH. constructor; try assumption. apply rotate_range.
  - now apply press_invariant.
  - exact (update_brightness_invariant d s _ s' H IH).
  - exact (update_volume_invariant d s _ s' H IH).
Qed.

(** ** No exception but the interrupt leaves the control loop *)

Lemma post_self {A} (m : M A) (s : state) : post m s (fun r s' => m s = (r, s')).
Proof. unfold post. now destruct (m s). Qed.

Lemma int_mul_float_small (d : Z) (x : float) :
  -200 <= d <= 200 -> exists t, Py.int_mul_float d x = inr t.
Proof.
  intros Hd. unfold Py.int_mul_float. rewrite float_of_int_small by exact Hd. eauto.
Qed.

Lemma update_brightness_safe (d : Z) (s : state) r s' :
  -200 <= d <= 200 ->
  update_brightness d s = (r, s') ->
  r = Ok tt \/ (r = Raise KeyboardInterrupt /\ sigint s' = None).
Proof.
  intros Hd H.
  destruct (interruptible_update_brightness d s r s' H) as [(-> & _ & Hs') | (_ & Hq & _)];
    [now right | left].
  rewrite update_brightness_quiet in Hq by reflexivity.
  unfold brightness_after in Hq.
  destruct (int_mul_float_small d brightness_step Hd) as [t Ht]. rewrite Ht in Hq.
  destruct (Py.gt _ _); [|congruence].
  destruct (clamp_in_unit (brightness (quiet s) + t)) as [H0 H1].
  destruct (percent_of_defined _ H0 H1) as [z Hz].
  cbv zeta in Hq. rewrite Hz in Hq. congruence.
Qed.

Lemma update_volume_safe (d : Z) (s : state) r s' :
  update_volume d s = (r, s') ->
  r = Ok tt \/ (r = Raise KeyboardInterrupt /\ sigint s' = None).
Proof.
  intros H.
  destruct (interruptible_update_volume d s r s' H) as [(-> & _ & Hs') | (_ & Hq & _)];
    [now right | left].
  rewrite update_volume_quiet in Hq by reflexivity. cbv zeta in Hq.
  destruct (_ >? _); congruence.
Qed.

Lemma set_system_volume_safe (vol : Z) (s : state) r s' :
  set_system_volume vol s = (r, s') ->
  r = Ok tt \/ (r = Raise KeyboardInterrupt /\ sigint s' = None).
Proof.
  intros H.
  destruct (interruptible_set_system_volume vol s r s' H) as [(-> & _ & Hs') | (_ & Hq & _)];
    [now right | left].
  rewrite set_system_volume_quiet in Hq by reflexivity. congruence.
Qed.

Lemma running_halted (s : state) : running s -> halted s.
Proof. intros H. now exists s. Qed.

Lemma halted_signal (sg : option nat) (s : state) : halted s -> halted (set_sigint sg s).
Proof. intros (s0 & H0 & Hp & Hl). now exists s0. Qed.

Create HintDb running.
#[local] Hint Resolve running_signal running_halted halted_signal : running.
#[local] Hint Constructors running : running.

Ltac running_leaf :=
  cbn [fst snd];
  repeat match goal with |- _ /\ _ => split end;
  first [ reflexivity
        | assumption
        | solve [eauto 8 with running] ].

Lemma poll_brightness_post (lb : Z) (s : state) :
  running s -> in_steps lb ->
  post (poll_brightness lb) s
    (fun r s' =>
       match r with
       | Ok lb' => running s' /\ in_steps lb'
       | Raise e => e = KeyboardInterrupt /\ sigint s' = None /\ halted s'
       | Running => False
       end).
Proof.
  intros Hrun Hlb. pose proof (running_invariant s Hrun) as Hinv.
  unfold poll_brightness.
  wp_run; try solve [running_leaf].
  eapply post_conseq; [apply post_self|]. intros r s1 Hcall.
  pose proof (post_elim _ _ _ _ _ Hcall (update_brightness_untouched _ _)) as Hf.
  cbv beta in Hf. field pixels Hf. field led_states Hf.
  assert (Hd : -200 <= encoder_brightness (set_sigint sg s) - lb <= 200).
  { destruct Hinv. cbn. unfold in_steps, MAX_STEPS in *. lia. }
  destruct (update_brightness_safe _ _ _ _ Hd Hcall) as [-> | [-> Hs1]].
  - assert (Hrun1 : running s1).
    { eapply running_update_brightness; [|exact Hcall]. eauto 8 with running. }
    wp_run; try solve [running_leaf].
    split; [eauto with running|]. cbn. split; apply Hinv.
  - repeat split; auto. exists s. repeat split; auto.
Qed.

Lemma poll_volume_post (lv : Z) (s : state) :
  running s -> in_steps lv ->
  post (poll_volume lv) s
    (fun r s' =>
       match r with
       | Ok lv' => running s' /\ in_steps lv'
       | Raise e => e = KeyboardInterrupt /\ sigint s' = None /\ halted s'
       | Running => False
       end).
Proof.
  intros Hrun Hlv. pose proof (running_invariant s Hrun) as Hinv.
  unfold poll_volume.
  wp_run; try solve [running_leaf].
  eapply post_conseq; [apply post_self|]. intros r s1 Hcall.
  pose proof (post_elim _ _ _ _ _ Hcall (update_volume_untouched _ _)) as [Hf _].
  cbv beta in Hf. field pixels Hf. field led_states Hf.
  destruct (update_volume_safe _ _ _ _ Hcall) as [-> | [-> Hs1]].
  - assert (Hrun1 : running s1).
    { eapply running_update_volume; [|exact Hcall]. eauto 8 with running. }
    wp_run; try solve [running_leaf].
    split; [eauto with running|]. cbn. split; apply Hinv.
  - repeat split; auto. exists s. repeat split; auto.
Qed.

Lemma press_ok (k : nat) (s : state) : fst (press k s) = Ok tt.
Proof.
  unfold press, in_background.
  match goal with |- context [match ?x with (_, _) => _ end] => now destruct x end.
Qed.

Lemma press_all_post (ks : list nat) (s : state) :
  running s -> post (press_all ks) s (fun r s' => r = Ok tt /\ running s').
Proof.
  revert s. induction ks as [|k ks IH]; intros s Hrun; cbn [press_all].
  - now wp_run.
  - apply post_bind. unfold post at 1. rewrite press_ok.
    apply IH. now apply running_press.
Qed.

Lemma environment_post (a : activity) (s : state) :
  running s -> post (environment a) s (fun r s' => r = Ok tt /\ running s').
Proof.
  intros Hrun. unfold environment. wp_run.
  apply press_all_post. eauto with running.
Qed.

(** The loop never returns; it is still running when the observation
    ends, unless the interrupt stopped it. *)
Theorem control_loop_post (acts : list activity) (lb lv : Z) (s : state) :
  running s -> in_steps lb -> in_steps lv ->
  post (control_loop acts lb lv) s
    (fun r s' =>
       match r with
       | Ok _ => False
       | Raise e => e = KeyboardInterrupt /\ sigint s' = None /\ halted s'
       | Running => running s'
       end).
Proof.
  revert lb lv s. induction acts as [|a acts IH]; intros lb lv s Hrun Hlb Hlv;
    cbn [control_loop].
  - exact Hrun.
  - apply post_bind.
    eapply post_conseq; [apply (environment_post a s Hrun)|].
    intros r s1 [-> Hrun1]. apply post_bind.
    eapply post_conseq; [apply (poll_brightness_post lb s1 Hrun1 Hlb)|].
    intros [lb'|e|] s2 H2; try exact H2; try contradiction. destruct H2 as [Hrun2 Hlb'].
    apply post_bind.
    eapply post_conseq; [apply (poll_volume_post lv s2 Hrun2 Hlv)|].
    intros [lv'|e|] s3 H3; try exact H3; try contradiction. destruct H3 as [Hrun3 Hlv'].
    wp_run; solve [running_leaf].
Qed.

(** ** Startup, shutdown and the whole script *)

Lemma started_ok device faults :
  (init_audio ;; startup) (boot device faults None) = (Ok (0, 0), started device faults).
Proof.
  unfold started.
  destruct ((init_audio ;; startup) (boot device faults None)) as [r s] eqn:E.
  apply (f_equal fst) in E. cbn [fst snd] in *.
  destruct device, faults as [|[] rest]; vm_compute in E; now subst r.
Qed.

Lemma started_running device faults : running (started device faults).
Proof. eapply running_started. apply started_ok. Qed.

Lemma interruptible_boot_sequence : interruptible (init_audio ;; startup).
Proof.
  apply interruptible_bind; [apply interruptible_init_audio|].
  intros _. apply interruptible_startup.
Qed.

(** The startup sequence returns, unless the interrupt cuts it short. *)
Lemma boot_sequence_safe device faults sig r s :
  (init_audio ;; startup) (boot device faults sig) = (r, s) ->
  (exists lasts, r = Ok lasts /\ running s /\ lasts = (0, 0)) \/
  (r = Raise KeyboardInterrupt /\ sigint s = None).
Proof.
  intros H.
  destruct (interruptible_boot_sequence _ _ _ H) as [(-> & _ & Hs) | (_ & Hq & _)];
    [now right | left].
  change (quiet (boot device faults sig)) with (boot device faults None) in Hq.
  rewrite started_ok in Hq. injection Hq as <- Hq.
  exists (0, 0). repeat split; auto. eapply running_started. exact H.
Qed.

Lemma setup_from_untouched (rest : list switch) (i : nat) (s : state) :
  post (setup_from i rest) s
    (fun _ s' => pixels s' = pixels s /\ led_states s' = led_states s).
Proof.
  revert i s. induction rest as [|sw rest IH]; intros i s; cbn [setup_from].
  - now wp_run.
  - wp_run; auto. eapply post_conseq; [apply IH|]. cbn. auto.
Qed.

Ltac wp_norm :=
  cbn [brightness volume led_states audio_available switches pixels
       pixels_brightness encoder_brightness encoder_volume audio_device
       sink_faults sigint trace
       set_brightness set_volume set_led_states set_audio_available
       set_switches set_pixels set_pixels_brightness set_encoder_brightness
       set_encoder_volume set_sink_faults set_sigint set_trace emit].

Ltac wp_run_norm := repeat first [wp_tick | wp_step; wp_norm | wp_case | wp_sink].

(** Up to the loop, nothing is lit. *)
Lemma boot_sequence_dark device faults sig :
  post (init_audio ;; startup) (boot device faults sig)
    (fun _ s' => dark s' /\ led_states s' = replicate NUM_LEDS false).
Proof.
  assert (Hinit : post init_audio (boot device faults sig)
                    (fun _ s' => pixels s' = replicate NUM_LEDS black /\
                                 led_states s' = replicate NUM_LEDS false)).
  { unfold init_audio, open_audio_endpoint. wp_run; split; reflexivity. }
  apply post_bind. eapply post_conseq; [exact Hinit|].
  intros r s [Hs Hl]. destruct r; try (split; assumption).
  assert (Hlen : length (pixels s) = NUM_LEDS) by (now rewrite Hs).
  unfold startup, setup_switch_handlers, dark.
  wp_run_norm; rewrite ?Hlen; try (split; assumption); try (split; [reflexivity | assumption]).
  eapply post_conseq; [apply setup_from_untouched|]. wp_norm.
  intros r s1 [Hp1 Hl1].
  destruct r; try (split; congruence).
  wp_run_norm.
  eapply post_conseq; [apply set_system_volume_untouched|].
  intros r s2 Hf. field pixels Hf. field led_states Hf.
  destruct r; try (split; congruence).
  wp_run_norm; wp_norm; split; congruence.
Qed.

Lemma shutdown_quiet (s : state) :
  sigint s = None -> shutdown s = (Ok tt, shut_down s).
Proof.
  intros Hq. apply post_eq. unfold shutdown, shut_down.
  wp_run_quiet. reflexivity.
Qed.

Lemma halted_pixels_length (s : state) : halted s -> length (pixels s) = NUM_LEDS.
Proof.
  intros (s0 & H0 & -> & _).
  apply consistent_pixels_length, running_invariant, H0.
Qed.

Lemma render_palette (l : list bool) (i : nat) (p : rgb) :
  render l !! i = Some p -> p = black \/ led_colors !! i = Some p.
Proof.
  unfold render. intros H. apply lookup_zip_with_Some in H as ([] & c & -> & _ & Hc); auto.
Qed.

Lemma running_palette (s : state) : running s -> palette s.
Proof.
  intros H i p Hp. destruct (running_invariant s H) as [[_ Hpx] _ _ _ _ _ _ _].
  rewrite Hpx in Hp. eapply render_palette, Hp.
Qed.

Lemma halted_palette (s : state) : halted s -> palette s.
Proof.
  intros (s0 & H0 & Hp & _) i p. rewrite Hp. now apply running_palette.
Qed.

Lemma dark_palette (s : state) : dark s -> palette s.
Proof.
  intros Hd i p. rewrite Hd. intros [-> _]%lookup_replicate. now left.
Qed.

Lemma shut_down_dark (s : state) :
  length (pixels s) = NUM_LEDS -> dark (shut_down s).
Proof. intros H. unfold dark, shut_down. cbn. now rewrite H. Qed.

(** What the script can come to: still running, stopped by the interrupt
    during the loop and shut down, or stopped by the interrupt before
    the loop was entered. *)
Theorem script_post (acts : list activity) device faults sig :
  post (script acts) (boot device faults sig)
    (fun r s' =>
       match r with
       | Running => running s'
       | Ok _ => exists s0, halted s0 /\ sigint s0 = None /\ s' = shut_down s0
       | Raise e => e = KeyboardInterrupt /\ sigint s' = None /\ dark s'
       end).
Proof.
  unfold script, main.
  assert (H : post (init_audio ;; startup) (boot device faults sig)
            (fun r s => match r with
                        | Ok lasts => running s /\ lasts = (0, 0)
                        | Raise e => e = KeyboardInterrupt /\ sigint s = None /\ dark s
                        | Running => False
                        end)).
  { eapply post_conseq; [apply post_self|]. intros r s H.
    pose proof (post_elim _ _ _ _ _ H (boot_sequence_dark device faults sig)) as [Hd _].
    destruct (boot_sequence_safe _ _ _ _ _ H) as [(lasts & -> & Hr & ->) | [-> Hs]]; auto. }
  unfold post in H |- *. unfold bind in H |- *.
  destruct (init_audio (boot device faults sig)) as [[[]|e|] s1].
  - destruct (startup s1) as [[lasts|e|] s2]; cbn [fst snd] in *; try exact H; try contradiction.
    destruct H as [Hrun ->]. cbn [fst snd].
    unfold guarded_loop, try_except_KeyboardInterrupt.
    pose proof (control_loop_post acts 0 0 s2 Hrun) as Hloop.
    unfold post in Hloop.
    destruct (control_loop acts 0 0 s2) as [[[]|e|] s3]; cbn [fst snd] in *.
    + exfalso. apply Hloop; unfold in_steps, MAX_STEPS; lia.
    + destruct Hloop as (-> & Hs3 & Hh); try (unfold in_steps, MAX_STEPS; lia).
      rewrite shutdown_quiet by exact Hs3. cbn [fst snd]. eauto.
    + apply Hloop; unfold in_steps, MAX_STEPS; lia.
  - exact H.
  - contradiction.
Qed.

(** No pixel value other than black and the LED's own colour is ever
    reached, however the script is run and wherever it is stopped. *)
Theorem script_palette (acts : list activity) device faults sig :
  palette (snd (script acts (boot device faults sig))).
Proof.
  pose proof (script_post acts device faults sig) as H. unfold post in H.
  destruct (script acts (boot device faults sig)) as [[[]|e|] s']; cbn [fst snd] in *.
  - destruct H as (s0 & Hh & _ & ->).
    apply dark_palette, shut_down_dark, halted_pixels_length, Hh.
  - apply dark_palette, H.
  - apply running_palette, H.
Qed.

(** ** C5: the pixel buffer shows the LED states *)

(** C5 as stated fails once the interrupt has stopped the loop: the
    shutdown sequence blanks the pixel buffer and leaves [led_states] as
    it was.  Switch 1 is pressed, then the interrupt arrives: LED 1 is
    still recorded as on and its pixel is black, not red. *)
Lemma C5_counterexample :
  let run := script [mkActivity 0 0 [0%nat]] (boot true [] (Some 28%nat)) in
  fst run = Ok tt /\
  led_states (snd run) !! 0%nat = Some true /\
  led_colors !! 0%nat = Some (255, 0, 0) /\
  pixels (snd run) !! 0%nat = Some black.
Proof. vm_compute. repeat split; reflexivity. Qed.

Lemma toggle_led_commits (i : Z) (s : state) :
  post (toggle_led i) s
    (fun r s' => r = Ok tt ->
       exists before,
         trace s' = before ++ [EvShow (pixels s') (pixels_brightness s')]).
Proof.
  unfold toggle_led, pixels_setitem.
  wp_run; intros Hr; try discriminate Hr; cbn; eexists; reflexivity.
Qed.

(** C5, amended. In every state reached while the control loop runs, and
    for every LED index below 9, the pixel slot holds the assigned colour
    when the LED is on and black when it is off; in whatever state the
    script is stopped, shutdown included, a pixel is black or of its LED's
    colour; and a call to [toggle_led] that returns has committed the
    strip as its last outside call. *)
Theorem C5_pixels_show_led_states :
  (forall s i, running s -> (i < NUM_LEDS)%nat ->
     exists (on : bool) (c : rgb),
       led_states s !! i = Some on /\ led_colors !! i = Some c /\
       pixels s !! i = Some (if on then c else black)) /\
  (forall acts device faults sig,
     palette (snd (script acts (boot device faults sig)))) /\
  (forall i s s', toggle_led i s = (Ok tt, s') ->
     exists before,
       trace s' = before ++ [EvShow (pixels s') (pixels_brightness s')]).
Proof.
  split; [|split].
  - intros s i Hrun Hi.
    destruct (running_invariant s Hrun) as [Hc _ _ _ _ _ _ _].
    destruct (consistent_lookup s i Hc Hi) as [on Hon].
    exists on, (default black (led_colors !! i)).
    split; [exact Hon|]. split; [now apply led_colors_lookup|].
    destruct Hc as [_ ->]. now apply render_lookup.
  - apply script_palette.
  - intros i s s' H. exact (post_elim _ _ _ _ _ H (toggle_led_commits i s) eq_refl).
Qed.

Lemma C5_witness :
  exists (on : bool) (c : rgb),
    led_states (started true []) !! 4%nat = Some on /\
    led_colors !! 4%nat = Some c /\
    pixels (started true []) !! 4%nat = Some (if on then c else black).
Proof.
  apply (proj1 C5_pixels_show_led_states).
  - apply started_running.
  - unfold NUM_LEDS. lia.
Defined.

(** ** C6: toggling twice *)

(** C6 as stated fails in the state the shutdown sequence leaves behind,
    where the strip was blanked and [led_states] kept: switch 1 is pressed
    once, the interrupt arrives and [main] returns with LED 1 recorded as
    on and its pixel black.  Two calls of [toggle_led(0)] there both
    return, the first recording the LED as off and writing black, the
    second recording it as on and writing red: the on/off state is the
    original one, the pixel is red and was black. *)
Lemma C6_counterexample :
  let run := script [mkActivity 0 0 [0%nat]] (boot true [] (Some 28%nat)) in
  let s := snd run in
  let once := toggle_led 0 s in
  let twice := toggle_led 0 (snd once) in
  fst run = Ok tt /\
  fst once = Ok tt /\ fst twice = Ok tt /\
  led_states s !! 0%nat = Some true /\
  led_states (snd twice) !! 0%nat = Some true /\
  pixels s !! 0%nat = Some black /\
  pixels (snd twice) !! 0%nat = Some (255, 0, 0).
Proof. vm_compute. repeat split; reflexivity. Qed.

(** C6, amended. In every state reached while the loop runs, two Pressed
    edges on switch [k], that is two calls of [toggle_led(k)], give back
    the on/off state of every LED and the whole pixel buffer, LED [k]
    having been inverted in between. *)
Theorem C6_toggle_twice (s : state) (k : nat) :
  running s -> (k < NUM_LEDS)%nat ->
  (let s1 := snd (press k s) in
   let s2 := snd (press k s1) in
   led_states s1 !! k = negb <$> led_states s !! k /\
   led_states s2 = led_states s /\ pixels s2 = pixels s) /\
  (sigint s = None ->
   exists s1 s2,
     toggle_led (Z.of_nat k) s = (Ok tt, s1) /\
     toggle_led (Z.of_nat k) s1 = (Ok tt, s2) /\
     led_states s1 !! k = negb <$> led_states s !! k /\
     led_states s2 = led_states s /\ pixels s2 = pixels s).
Proof.
  intros Hrun Hk.
  destruct (running_invariant s Hrun) as [Hc Hw _ _ _ _ _ _].
  destruct (consistent_lookup s k Hc Hk) as [on Hon].
  pose proof (consistent_pixels_length s Hc) as Hpx.
  pose proof (lookup_lt_Some _ _ _ Hon) as Hlt.
  assert (Hon1 : forall s0, led_states s0 = led_states s ->
            led_states (toggled k on s0) !! k = Some (negb on)).
  { intros s0 E. cbn. rewrite E. now apply list_lookup_insert_eq. }
  assert (Hpx1 : forall s0, pixels s0 = pixels s ->
            length (pixels (toggled k on s0)) = NUM_LEDS).
  { intros s0 E. cbn. now rewrite length_insert, E. }
  split.
  - cbv zeta.
    rewrite (press_wired k on s Hw Hk Hon Hpx). cbn [snd].
    rewrite (press_wired k (negb on) (set_sigint (sigint s) (toggled k on (quiet s)))
               Hw Hk (Hon1 (quiet s) eq_refl) (Hpx1 (quiet s) eq_refl)).
    cbn [snd].
    pose proof (toggled_twice k on (quiet s) Hk Hon Hc) as Ht.
    pose proof (Hon1 (quiet s) eq_refl) as H1.
    cbn in Ht, H1 |- *. rewrite Hon. split; [exact H1 | exact Ht].
  - intros Hq. exists (toggled k on s), (toggled k (negb on) (toggled k on s)).
    split; [now apply toggle_led_quiet|].
    split; [apply toggle_led_quiet; auto|].
    split; [rewrite Hon; now apply Hon1|].
    now apply toggled_twice.
Qed.

Lemma C6_witness :
  let s := started true [] in
  let s2 := snd (press 2 (snd (press 2 s))) in
  led_states s2 = led_states s /\ pixels s2 = pixels s.
Proof.
  intros s s2.
  assert (Hk : (2 < NUM_LEDS)%nat) by (unfold NUM_LEDS; lia).
  destruct (C6_toggle_twice s 2 (started_running true []) Hk) as [[_ H] _].
  exact H.
Defined.

(** ** C7: the interrupt and the shutdown sequence *)

(** C7. Run from any state of the running loop, the loop never returns
    and raises nothing but [KeyboardInterrupt], which it raises exactly
    when the signal is delivered while it runs.  Then the handler runs
    the shutdown sequence: every pixel is set to black, the strip is
    committed once, and [main] returns, the success status.  [main]
    returns in no other case: otherwise the loop is still running. *)
Theorem C7_interrupt_runs_shutdown (acts : list activity) (lb lv : Z) (s : state) :
  running s -> in_steps lb -> in_steps lv ->
  let r0 := fst (control_loop acts lb lv s) in
  let s0 := snd (control_loop acts lb lv s) in
  let r := fst (guarded_loop acts lb lv s) in
  let s' := snd (guarded_loop acts lb lv s) in
  (r0 = Running \/ r0 = Raise KeyboardInterrupt) /\
  ((sigint s <> None /\ sigint s0 = None) <-> r0 = Raise KeyboardInterrupt) /\
  (r0 = Raise KeyboardInterrupt ->
     r = Ok tt /\ exit_status r = ExitSuccess /\
     s' = shut_down s0 /\
     pixels s' = replicate NUM_LEDS black /\
     trace s' = trace s0 ++ [EvPrint MsgShuttingDown; EvFill black;
                             EvShow (replicate NUM_LEDS black) (pixels_brightness s0);
                             EvPrint MsgGoodbye]) /\
  (exit_status r = ExitSuccess -> r0 = Raise KeyboardInterrupt) /\
  (r0 = Running -> r = Running /\ s' = s0).
Proof.
  intros Hrun Hlb Hlv. cbv zeta.
  pose proof (control_loop_post acts lb lv s Hrun Hlb Hlv) as Hpost.
  unfold post in Hpost. unfold guarded_loop, try_except_KeyboardInterrupt.
  destruct (control_loop acts lb lv s) as [r0 s0] eqn:E. cbn [fst snd] in *.
  pose proof (interruptible_control_loop acts lb lv s r0 s0 E) as Hint.
  destruct r0 as [[]|e|]; [contradiction| |].
  - destruct Hpost as (-> & Hs0 & Hh).
    pose proof (halted_pixels_length s0 Hh) as Hlen.
    rewrite shutdown_quiet by exact Hs0. cbn [fst snd].
    split; [now right|]. split.
    { split; [reflexivity|]. intros _.
      destruct Hint as [(_ & Hs & _) | (Hne & _)]; [now split | congruence]. }
    split.
    { intros _. repeat split.
      - apply shut_down_dark, Hlen.
      - unfold shut_down. cbn. rewrite Hlen. now rewrite <- !app_assoc. }
    split; [reflexivity|]. discriminate.
  - split; [now left|]. split.
    { split; [|discriminate]. intros [Hs Hs0].
      destruct Hint as [(? & _) | (_ & _ & Hiff)]; [discriminate|].
      exfalso. apply Hs, Hiff, Hs0. }
    split; [discriminate|]. split; [discriminate|]. auto.
Qed.

Lemma C7_witness :
  let s := set_sigint (Some 3%nat) (started true []) in
  exit_status (fst (guarded_loop [mkActivity 4 0 [1%nat]; mkActivity 0 0 []] 0 0 s))
    = ExitSuccess.
Proof.
  intros s.
  assert (Hz : in_steps 0) by (unfold in_steps, MAX_STEPS; lia).
  assert (Hrun : running s) by (apply running_signal, started_running).
  destruct (C7_interrupt_runs_shutdown
              [mkActivity 4 0 [1%nat]; mkActivity 0 0 []] 0 0 s Hrun Hz Hz)
    as (_ & _ & H & _).
  apply H. vm_compute. reflexivity.
Defined.

(** ** C8: audio failures *)

Lemma set_system_volume_skipped (vol : Z) (s : state) :
  audio_available s = false ->
  post (set_system_volume vol) s (fun _ s' => trace s' = trace s /\ sink_faults s' = sink_faults s).
Proof.
  intros Ha. unfold set_system_volume.
  wp_run; cbn in *; auto; congruence.
Qed.

(** C8. The audio endpoint is opened once, at startup, and
    [audio_available] records the outcome from then on.  When it could not
    be opened every call of [set_system_volume] is skipped: no call to the
    endpoint, no exception.  When a later call to the endpoint raises, the
    error is caught and logged, [set_system_volume] returns normally and
    nothing but the trace and the endpoint is touched.  Whatever the
    audio endpoint does, [set_system_volume] raises nothing but the
    interrupt, and so does the control loop. *)
Theorem C8_audio_failures_never_escape :
  (forall s, running s -> probes s = 1%nat /\ audio_available s = audio_device s) /\
  (forall s vol, audio_available s = false ->
     (let s' := snd (set_system_volume vol s) in
      trace s' = trace s /\ sink_faults s' = sink_faults s) /\
     (sigint s = None -> set_system_volume vol s = (Ok tt, s))) /\
  (forall s vol, audio_available s = true -> sink_fails s = true -> sigint s = None ->
     exists s' ev,
       set_system_volume vol s = (Ok tt, s') /\
       trace s' = trace s ++ ev ++ [EvPrint MsgErrorSettingVolume] /\
       but_sink s' = but_sink s) /\
  (forall s vol r s', set_system_volume vol s = (r, s') ->
     r = Ok tt \/ r = Raise KeyboardInterrupt) /\
  (forall acts lb lv s, running s -> in_steps lb -> in_steps lv ->
     let r := fst (control_loop acts lb lv s) in
     r = Running \/ r = Raise KeyboardInterrupt).
Proof.
  split; [|split; [|split; [|split]]].
  - intros s Hrun. destruct (running_invariant s Hrun). auto.
  - intros s vol Ha. split.
    + exact (set_system_volume_skipped vol s Ha).
    + intros Hq. rewrite set_system_volume_quiet by exact Hq.
      unfold sink_push. now rewrite Ha.
  - intros s vol Ha Hf Hq.
    rewrite set_system_volume_quiet by exact Hq.
    unfold sink_push, sink_fails in *. rewrite Ha.
    destruct (Py.int_div_float vol 100) as [e|x].
    + exists (emit (EvPrint MsgErrorSettingVolume) s), []. repeat split.
    + destruct (sink_faults s) as [|[] rest]; try discriminate.
      eexists _, [EvSinkSet x]. repeat split. cbn. now rewrite <- app_assoc.
  - intros s vol r s' H.
    destruct (set_system_volume_safe vol s r s' H) as [-> | [-> _]]; auto.
  - intros acts lb lv s Hrun Hlb Hlv. cbv zeta.
    pose proof (control_loop_post acts lb lv s Hrun Hlb Hlv) as H. unfold post in H.
    destruct (fst (control_loop acts lb lv s)) as [[]|e|]; [contradiction| |now left].
    destruct H as [-> _]. now right.
Qed.

Lemma C8_witness :
  let s := started true [false; true] in
  exists s' ev,
    set_system_volume 40 s = (Ok tt, s') /\
    trace s' = trace s ++ ev ++ [EvPrint MsgErrorSettingVolume] /\
    but_sink s' = but_sink s.
Proof.
  intros s.
  destruct C8_audio_failures_never_escape as (_ & _ & H & _).
  apply H; vm_compute; reflexivity.
Defined.

(** ** C9: switch [k] drives LED [k] *)

Lemma setup_switch_handlers_quiet (s : state) :
  switches s = (fun p => mkSwitch p None) <$> SWITCH_PINS ->
  sigint s = None ->
  setup_switch_handlers s = (Ok tt, set_switches wired_switches s).
Proof.
  intros Hsw Hq. apply post_eq. unfold setup_switch_handlers.
  apply post_bind, post_gets. rewrite Hsw.
  cbn [fmap list_fmap SWITCH_PINS setup_from].
  wp_run_quiet. wp_norm. rewrite Hsw. reflexivity.
Qed.

(** C9. [setup_switch_handlers] gives switch [i] a callback that holds
    the index [i] itself, one per switch and as many as there are LEDs.
    While the loop runs, a Pressed edge on switch [k] calls
    [toggle_led(k)], a subscript within the nine-element lists; it inverts
    LED [k] and leaves every other LED and pixel as it was. *)
Theorem C9_switch_drives_its_led :
  (forall s,
     switches s = (fun p => mkSwitch p None) <$> SWITCH_PINS -> sigint s = None ->
     setup_switch_handlers s = (Ok tt, set_switches wired_switches s)) /\
  length wired_switches = NUM_LEDS /\
  (forall k, (k < NUM_LEDS)%nat ->
     exists p, SWITCH_PINS !! k = Some p /\
       wired_switches !! k = Some (mkSwitch p (Some (ToggleLambda (Z.of_nat k)))) /\
       call (ToggleLambda (Z.of_nat k)) = toggle_led (Z.of_nat k) /\
       Py.index NUM_LEDS (Z.of_nat k) = inr k) /\
  (forall s k, running s -> (k < NUM_LEDS)%nat ->
     switches s = wired_switches /\
     exists on,
       led_states s !! k = Some on /\
       press k s = (Ok tt, set_sigint (sigint s) (snd (toggle_led (Z.of_nat k) (quiet s)))) /\
       let s' := snd (press k s) in
       led_states s' !! k = Some (negb on) /\
       forall j, j <> k ->
         led_states s' !! j = led_states s !! j /\ pixels s' !! j = pixels s !! j).
Proof.
  split; [exact setup_switch_handlers_quiet|]. split; [reflexivity|]. split.
  - intros k Hk. unfold wired_switches. rewrite list_lookup_imap.
    destruct (SWITCH_PINS !! k) as [p|] eqn:E.
    + exists p. repeat split. now apply index_nat.
    + apply lookup_ge_None in E. cbn in E. unfold NUM_LEDS in Hk. lia.
  - intros s k Hrun Hk.
    destruct (running_invariant s Hrun) as [Hc Hw _ _ _ _ _ _].
    split; [exact Hw|].
    destruct (consistent_lookup s k Hc Hk) as [on Hon].
    pose proof (consistent_pixels_length s Hc) as Hpx.
    pose proof (lookup_lt_Some _ _ _ Hon) as Hlt.
    exists on. split; [exact Hon|].
    rewrite (press_wired k on s Hw Hk Hon Hpx).
    rewrite (toggle_led_quiet k on (quiet s)) by auto. cbn [snd].
    split; [reflexivity|]. cbn. split.
    + now apply list_lookup_insert_eq.
    + intros j Hj. split; apply list_lookup_insert_ne; auto.
Qed.

Lemma C9_witness :
  let s := started true [] in
  exists on,
    led_states s !! 7%nat = Some on /\
    led_states (snd (press 7 s)) !! 7%nat = Some (negb on).
Proof.
  intros s.
  assert (Hk : (7 < NUM_LEDS)%nat) by (unfold NUM_LEDS; lia).
  destruct C9_switch_drives_its_led as (_ & _ & _ & H).
  destruct (H s 7%nat (started_running true []) Hk) as (_ & on & Hon & _ & Hnew & _).
  exists on. split; [exact Hon | exact Hnew].
Defined.

(** ** C10: the stored volume is even *)

(** C10 as stated fails when the audio endpoint could not be opened: the
    stored volume changes, from 50 to 44, and nothing is pushed. *)
Lemma C10_counterexample :
  let s := started false [] in
  running s /\
  exists s', update_volume (-3) s = (Ok tt, s') /\
    volume s = 50 /\ volume s' = 44 /\
    forall x, ~ In (EvSinkSet x) (trace s').
Proof.
  intros s. split; [apply started_running|].
  eexists. split; [vm_compute; reflexivity|]. split; [reflexivity|]. split; [reflexivity|].
  intros x H. cbn in H.
  repeat (destruct H as [H|H]; [discriminate H|]). exact H.
Qed.

(** C10, amended. From the initial volume 50 the stored volume is always
    even.  An update that changes it changes it by at least 2, above the
    threshold, so that it always goes through [set_system_volume] and the
    log line that follows; [set_system_volume] pushes the new volume to
    the audio endpoint when audio is available. *)
Theorem C10_volume_changes_reach_the_sink (s : state) :
  running s ->
  Z.even (volume s) = true /\
  forall d s', update_volume d s = (Ok tt, s') ->
    Z.even (volume s') = true /\
    (volume s' <> volume s ->
       Z.abs (volume s' - volume s) >= 2 /\
       quiet s' = emit (EvPrint (MsgVolume (volume s')))
                    (sink_push (volume s') (set_volume (volume s') (quiet s))) /\
       (audio_available s = true ->
          In (EvSinkSet (Py.float_of_int_raw (volume s') / 100)) (trace s'))).
Proof.
  intros Hrun. pose proof (running_invariant s Hrun) as Hinv.
  split; [apply Hinv|]. intros d s' H.
  pose proof (running_invariant s' (running_update_volume d s s' Hrun H)) as Hinv'.
  split; [apply Hinv'|]. intros Hne.
  assert (Hge : Z.abs (volume s' - volume s) >= 2).
  { destruct Hinv as [_ _ _ He _ _ _ _], Hinv' as [_ _ _ He' _ _ _ _].
    apply Z.even_spec in He as [a Ha], He' as [b Hb]. lia. }
  split; [exact Hge|].
  apply update_volume_normal in H. rewrite update_volume_quiet in H by reflexivity.
  cbv zeta in H. change (volume (quiet s)) with (volume s) in H.
  set (new := volume_after (volume s) d) in *.
  destruct (Z.gtb_spec (Z.abs (new - volume s)) volume_threshold) as [Hgt|Hle].
  - apply (f_equal snd) in H. cbn [snd] in H.
    assert (Hv : volume s' = new).
    { apply (f_equal volume) in H. cbn in H. rewrite sink_push_volume in H.
      cbn in H. congruence. }
    rewrite Hv. split; [congruence|]. intros Ha.
    apply (f_equal trace) in H. change (trace (quiet s')) with (trace s') in H.
    rewrite <- H. cbn. apply in_or_app. left.
    unfold sink_push. cbn. rewrite Ha.
    rewrite int_div_float_percent by apply volume_after_bounds.
    destruct (sink_faults s) as [|[] rest]; cbn; rewrite ?in_app_iff; cbn; auto.
  - exfalso. apply Hne. apply (f_equal snd) in H. apply (f_equal volume) in H.
    cbn in H. unfold volume_threshold in Hle.
    destruct Hinv as [_ _ _ He _ _ _ _].
    pose proof (volume_after_even (volume s) d He) as He'. fold new in He'.
    rewrite <- H. now apply even_close.
Qed.

Lemma C10_witness :
  let s := started true [false; false] in
  let s' := snd (update_volume 3 s) in
  update_volume 3 s = (Ok tt, s') /\
  volume s = 50 /\ volume s' = 56 /\
  Z.even (volume s') = true /\
  Z.abs (volume s' - volume s) >= 2 /\
  In (EvSinkSet (Py.float_of_int_raw (volume s') / 100)) (trace s').
Proof.
  intros s s'.
  assert (Hcall : update_volume 3 s = (Ok tt, s')) by (vm_compute; reflexivity).
  assert (Hne : volume s' <> volume s) by (vm_compute; discriminate).
  destruct (C10_volume_changes_reach_the_sink s (started_running true [false; false]))
    as [_ H].
  destruct (H 3 s' Hcall) as [He Hchange].
  destruct (Hchange Hne) as (Hge & _ & Hin).
  split; [exact Hcall|]. split; [reflexivity|]. split; [reflexivity|].
  split; [exact He|]. split; [exact Hge|]. apply Hin. reflexivity.
Defined.

(** * Edge cases and further properties of the script *)

(** ** Subscripts out of range and negative subscripts *)

(** Straight-line statements with no interrupt pending, up to the next
    choice. *)
Ltac wp_lin := repeat first [wp_quiet | wp_step].

Lemma index_out_of_range (len : nat) (i : Z) :
  i < - Z.of_nat len \/ Z.of_nat len <= i -> Py.index len i = inl IndexError.
Proof.
  intros H. unfold Py.index.
  destruct (Z.leb_spec 0 i), (Z.ltb_spec i (Z.of_nat len)); cbn; try lia.
  all: destruct (Z.leb_spec (- Z.of_nat len) i), (Z.ltb_spec i 0); cbn; try lia;
    reflexivity.
Qed.

Lemma index_negative (len : nat) (i : Z) :
  - Z.of_nat len <= i < 0 -> Py.index len i = inr (Z.to_nat (i + Z.of_nat len)).
Proof.
  intros H. unfold Py.index.
  destruct (Z.leb_spec 0 i), (Z.ltb_spec i (Z.of_nat len)); cbn; try lia.
  all: destruct (Z.leb_spec (- Z.of_nat len) i), (Z.ltb_spec i 0); cbn; try lia;
    reflexivity.
Qed.

Lemma getitem_out_of_range {A} (l : list A) (i : Z) :
  i < - Z.of_nat (length l) \/ Z.of_nat (length l) <= i ->
  Py.getitem l i = inl IndexError.
Proof. intros H. unfold Py.getitem. now rewrite index_out_of_range. Qed.

Lemma getitem_at {A} (l : list A) (i : Z) (k : nat) (x : A) :
  Py.index (length l) i = inr k -> l !! k = Some x -> Py.getitem l i = inr x.
Proof. intros Hi Hx. unfold Py.getitem. now rewrite Hi, Hx. Qed.

Lemma setitem_at {A} (l : list A) (i : Z) (k : nat) (x : A) :
  Py.index (length l) i = inr k -> Py.setitem l i x = inr (<[k:=x]> l).
Proof. intros Hi. unfold Py.setitem. now rewrite Hi. Qed.

(** X1. [toggle_led] called with a subscript outside [-n, n), [n] being
    the length of [led_states], raises [IndexError] at its first statement
    and has changed nothing; whatever the interrupt does, such a call
    never returns normally and leaves the LED states, the pixel buffer and
    the trace as they were. *)
Theorem toggle_led_out_of_range (i : Z) (s : state) :
  i < - Z.of_nat (length (led_states s)) \/ Z.of_nat (length (led_states s)) <= i ->
  (sigint s = None -> toggle_led i s = (Raise IndexError, s)) /\
  (let r := fst (toggle_led i s) in
   let s' := snd (toggle_led i s) in
   (r = Raise IndexError \/ r = Raise KeyboardInterrupt) /\
   led_states s' = led_states s /\ pixels s' = pixels s /\ trace s' = trace s).
Proof.
  intros Hi. pose proof (getitem_out_of_range (led_states s) i Hi) as Hget. split.
  - intros Hq. apply post_eq. unfold toggle_led.
    wp_lin. rewrite Hget. reflexivity.
  - cbv zeta.
    change (post (toggle_led i) s
              (fun r s' => (r = Raise IndexError \/ r = Raise KeyboardInterrupt) /\
                           led_states s' = led_states s /\ pixels s' = pixels s /\
                           trace s' = trace s)).
    unfold toggle_led.
    wp_step. wp_tick; [|auto]. wp_lin.
    cbn [led_states set_sigint]. rewrite Hget. auto.
Qed.

Lemma toggle_led_out_of_range_witness :
  toggle_led 9 (started true []) = (Raise IndexError, started true []).
Proof.
  apply (toggle_led_out_of_range 9 (started true [])).
  - right. vm_compute. discriminate.
  - reflexivity.
Defined.

Lemma toggle_led_at (i : Z) (k : nat) (on : bool) (s : state) :
  sigint s = None ->
  Py.index NUM_LEDS i = inr k ->
  length (led_states s) = NUM_LEDS ->
  length (pixels s) = NUM_LEDS ->
  led_states s !! k = Some on ->
  toggle_led i s = (Ok tt, toggled_at i k on s).
Proof.
  intros Hq Hi Hlen Hpx Hon.
  pose proof (index_in_range _ _ _ Hi) as Hk.
  pose proof (led_colors_lookup k Hk) as Hc.
  assert (Hlen' : (k < length (led_states s))%nat) by (now rewrite Hlen).
  pose proof (list_lookup_insert_eq (led_states s) k (negb on) Hlen') as Hnew.
  assert (Hi1 : Py.index (length (led_states s)) i = inr k) by (now rewrite Hlen).
  assert (Hi2 : Py.index (length (<[k:=negb on]> (led_states s))) i = inr k)
    by (now rewrite length_insert, Hlen).
  assert (Hi3 : Py.index (length led_colors) i = inr k) by exact Hi.
  assert (Hi4 : Py.index (length (pixels s)) i = inr k) by (now rewrite Hpx).
  pose proof (getitem_at led_colors i k _ Hi3 Hc) as Hcol.
  apply post_eq. unfold toggle_led, toggled_at, pixels_setitem.
  wp_lin. rewrite (getitem_at _ _ _ _ Hi1 Hon).
  wp_lin. rewrite (setitem_at _ _ _ _ Hi1).
  wp_lin. cbn [led_states set_led_states]. rewrite (getitem_at _ _ _ _ Hi2 Hnew).
  destruct on; cbn [negb];
    repeat first [progress wp_lin | rewrite Hcol | rewrite Hi4 | progress wp_norm];
    reflexivity.
Qed.

(** X2. [toggle_led] accepts the negative subscripts of Python: called
    with [i] in [-9, 0) it returns normally, having toggled LED [i + 9]
    and its pixel and committed the strip, and the log line numbers the
    LED [i + 1], a number between -8 and 0. *)
Theorem toggle_led_negative_subscript (i : Z) (on : bool) (s : state) :
  sigint s = None ->
  -9 <= i < 0 ->
  length (led_states s) = NUM_LEDS ->
  length (pixels s) = NUM_LEDS ->
  led_states s !! Z.to_nat (i + 9) = Some on ->
  let k := Z.to_nat (i + 9) in
  let s' := toggled_at i k on s in
  toggle_led i s = (Ok tt, s') /\
  (k < NUM_LEDS)%nat /\
  led_states s' = <[k:=negb on]> (led_states s) /\
  exists c,
    (if on then c = black else led_colors !! k = Some c) /\
    pixels s' = <[k:=c]> (pixels s) /\
    trace s' = trace s ++
      [EvSetPixel k c;
       EvPrint (if on then MsgLedOff (i + 1) else MsgLedOn (i + 1) c);
       EvShow (<[k:=c]> (pixels s)) (pixels_brightness s)].
Proof.
  intros Hq Hi Hlen Hpx Hon k s'.
  assert (Hidx : Py.index NUM_LEDS i = inr k).
  { rewrite index_negative by (unfold NUM_LEDS; lia). reflexivity. }
  pose proof (index_in_range _ _ _ Hidx) as Hk.
  split; [now apply toggle_led_at|]. split; [exact Hk|]. split; [reflexivity|].
  exists (if negb on then default black (led_colors !! k) else black).
  split; [|split].
  - destruct on; cbn [negb]; [reflexivity | now apply led_colors_lookup].
  - reflexivity.
  - unfold s', toggled_at. cbn. rewrite <- !app_assoc. now destruct on.
Qed.

Lemma toggle_led_negative_subscript_witness :
  toggle_led (-1) (started true []) = (Ok tt, toggled_at (-1) 8 false (started true [])).
Proof.
  apply (toggle_led_negative_subscript (-1) false (started true []));
    first [reflexivity | lia].
Defined.

(** ** Arguments that do not convert to a float *)

(** X3. With no interrupt pending, [update_brightness] either returns
    normally or raises [OverflowError], and it raises exactly when the
    delta is too large an integer to convert to a float, in [steps * 0.02];
    the state is then as it was before the call. *)
Theorem update_brightness_overflow (d : Z) (s : state) :
  sigint s = None ->
  (Py.float_of_int d = inl OverflowError /\
   update_brightness d s = (Raise OverflowError, s)) \/
  (exists f s', Py.float_of_int d = inr f /\ update_brightness d s = (Ok tt, s')).
Proof.
  intros Hq. rewrite update_brightness_quiet by exact Hq.
  unfold brightness_after, Py.int_mul_float.
  destruct (Py.float_of_int d) as [e|f] eqn:E.
  - left. rewrite (float_of_int_error d e E). split; reflexivity.
  - right. exists f.
    destruct (clamp_in_unit (brightness s + f * brightness_step)) as [H0 H1].
    destruct (percent_of_defined _ H0 H1) as [z Hz]. cbv zeta. rewrite Hz.
    destruct (Py.gt _ _); eauto.
Qed.

Lemma update_brightness_overflow_witness :
  update_brightness (2 ^ 1024) (started true []) = (Raise OverflowError, started true []).
Proof.
  destruct (update_brightness_overflow (2 ^ 1024) (started true []) eq_refl)
    as [[_ H] | (f & s' & Hf & _)]; [exact H|].
  vm_compute in Hf. discriminate Hf.
Defined.

(** X4. [set_system_volume] does not check the range of its argument.
    With audio available and no interrupt pending it returns normally for
    every integer: the endpoint is called with [vol / 100.0] as it is, and
    an error is logged when that call fails; when [vol] is too large to
    convert to a float the [OverflowError] of the division is caught and
    logged and the endpoint is not called. *)
Theorem set_system_volume_any_argument (vol : Z) (s : state) :
  sigint s = None -> audio_available s = true ->
  exists s', set_system_volume vol s = (Ok tt, s') /\
    trace s' = trace s ++
      match Py.float_of_int vol with
      | inl _ => [EvPrint MsgErrorSettingVolume]
      | inr f => EvSinkSet (f / 100) ::
                 (if sink_fails s then [EvPrint MsgErrorSettingVolume] else [])
      end.
Proof.
  intros Hq Ha. rewrite set_system_volume_quiet by exact Hq.
  eexists. split; [reflexivity|].
  unfold sink_push, sink_fails, Py.int_div_float. rewrite Ha.
  destruct (Py.float_of_int vol) as [e|f]; [reflexivity|].
  destruct (sink_faults s) as [|[] rest]; cbn; now rewrite <- ?app_assoc.
Qed.

Lemma set_system_volume_any_argument_witness :
  exists s', set_system_volume 150 (started true []) = (Ok tt, s') /\
    trace s' = trace (started true []) ++ [EvSinkSet 1.5].
Proof.
  destruct (set_system_volume_any_argument 150 (started true []) eq_refl eq_refl)
    as (s' & H & Ht).
  exists s'. split; [exact H|]. rewrite Ht. vm_compute. reflexivity.
Defined.

(** ** The polling loop *)

Lemma bind_ok {A B} (m : M A) (k : A -> M B) (s s' : state) (a : A) :
  m s = (Ok a, s') -> bind m k s = k a s'.
Proof. unfold bind. now intros ->. Qed.

Lemma rotate_idle (steps : Z) : in_steps steps -> rotate steps 0 = steps.
Proof. unfold in_steps, rotate, MAX_STEPS. lia. Qed.

Lemma environment_idle (s : state) :
  in_steps (encoder_brightness s) -> in_steps (encoder_volume s) ->
  environment idle s = (Ok tt, s).
Proof.
  intros Hb Hv. unfold environment, idle, bind, modify, ret. cbn.
  rewrite !rotate_idle by assumption. now destruct s.
Qed.

Lemma poll_brightness_still (s : state) :
  sigint s = None -> poll_brightness (encoder_brightness s) s = (Ok (encoder_brightness s), s).
Proof.
  intros Hq. apply post_eq. unfold poll_brightness.
  wp_lin. rewrite Z.eqb_refl. wp_lin. reflexivity.
Qed.

Lemma poll_volume_still (s : state) :
  sigint s = None -> poll_volume (encoder_volume s) s = (Ok (encoder_volume s), s).
Proof.
  intros Hq. apply post_eq. unfold poll_volume.
  wp_lin. rewrite Z.eqb_refl. wp_lin. reflexivity.
Qed.

(** X5. While neither encoder moves and no switch is pressed, the loop
    does nothing but sleep: after [n] iterations it is still running, it
    has slept [n] times, and it has made no other call and changed no
    variable. *)
Theorem idle_loop_only_sleeps (n : nat) (s : state) :
  sigint s = None ->
  in_steps (encoder_brightness s) -> in_steps (encoder_volume s) ->
  control_loop (replicate n idle) (encoder_brightness s) (encoder_volume s) s =
    (Running, set_trace (trace s ++ replicate n EvSleep) s).
Proof.
  revert s. induction n as [|n IH]; intros s Hq Hb Hv; cbn [replicate control_loop].
  - rewrite app_nil_r. now destruct s.
  - rewrite (bind_ok _ _ _ _ _ (environment_idle s Hb Hv)).
    rewrite (bind_ok _ _ _ _ _ (poll_brightness_still s Hq)).
    rewrite (bind_ok _ _ _ _ _ (poll_volume_still s Hq)).
    rewrite (bind_ok _ _ _ _ _ (tick_quiet s Hq)).
    rewrite (bind_ok sleep _ s (emit EvSleep s) tt eq_refl).
    change (encoder_brightness s) with (encoder_brightness (emit EvSleep s)).
    change (encoder_volume s) with (encoder_volume (emit EvSleep s)).
    rewrite IH by assumption. cbn. now rewrite <- app_assoc.
Qed.

Lemma idle_loop_only_sleeps_witness :
  let s := started true [] in
  control_loop [idle; idle; idle] 0 0 s =
    (Running, set_trace (trace s ++ [EvSleep; EvSleep; EvSleep]) s).
Proof.
  assert (H0 : in_steps 0) by (unfold in_steps, MAX_STEPS; lia).
  exact (idle_loop_only_sleeps 3 (started true []) eq_refl H0 H0).
Defined.

(** ** What a Pressed edge leaves untouched *)

Lemma toggle_led_untouched (i : Z) (s : state) :
  post (toggle_led i) s (fun _ s' => but_leds s' = but_leds s).
Proof. unfold toggle_led, pixels_setitem. wp_run; reflexivity. Qed.










(** ** The startup sequence *)

Lemma started_trace (device : bool) (faults : list bool) :
  trace (started device faults) =
    [EvAudioProbe;
     EvPrint (if device then MsgAudioInitialized else MsgAudioNotAvailable)]
    ++ banner
    ++ [EvFill black; EvShow (replicate NUM_LEDS black) 0.5]
    ++ (if device then
          EvSinkSet 0.5 ::
          match faults with
          | true :: _ => [EvPrint MsgErrorSettingVolume]
          | _ => []
          end
        else []).
Proof. destruct device, faults as [|[] rest]; vm_compute; reflexivity. Qed.


(** ** What a computation adds to the trace *)

Section Emits.
Context {A B : Type} (P : event -> Prop).

Lemma emits_silent (m : M A) :
  (forall s, trace (snd (m s)) = trace s) -> emits P m.
Proof. intros H s. exists []. rewrite app_nil_r. auto. Qed.

Lemma emits_ret (a : A) : emits P (ret a).
Proof. now apply emits_silent. Qed.

Lemma emits_raise (e : exn) : emits P (@raise A e).
Proof. now apply emits_silent. Qed.

Lemma emits_lift (r : exn + A) : emits P (lift r).
Proof. destruct r; [apply emits_raise | apply emits_ret]. Qed.

Lemma emits_gets (f : state -> A) : emits P (gets f).
Proof. now apply emits_silent. Qed.

Lemma emits_bind (m : M B) (k : B -> M A) :
  emits P m -> (forall b, emits P (k b)) -> emits P (bind m k).
Proof.
  intros Hm Hk s. unfold bind. destruct (Hm s) as (e1 & H1 & F1).
  destruct (m s) as [[b|e|] s1]; cbn [snd] in *; try (now exists e1).
  destruct (Hk b s1) as (e2 & H2 & F2). exists (e1 ++ e2).
  rewrite H2, H1, app_assoc. split; [reflexivity|]. now apply Forall_app.
Qed.

Lemma emits_try_except_Exception (body handler : M A) :
  emits P body -> emits P handler -> emits P (try_except_Exception body handler).
Proof.
  intros Hb Hh s. unfold try_except_Exception. destruct (Hb s) as (e1 & H1 & F1).
  destruct (body s) as [[a|e|] s1]; cbn [snd] in *; try (now exists e1).
  destruct (is_Exception e); [|now exists e1].
  destruct (Hh s1) as (e2 & H2 & F2). exists (e1 ++ e2).
  rewrite H2, H1, app_assoc. split; [reflexivity|]. now apply Forall_app.
Qed.

Lemma emits_try_except_KeyboardInterrupt (body handler : M A) :
  emits P body -> emits P handler ->
  emits P (try_except_KeyboardInterrupt body handler).
Proof.
  intros Hb Hh s. unfold try_except_KeyboardInterrupt.
  destruct (Hb s) as (e1 & H1 & F1).
  destruct (body s) as [[a|e|] s1]; cbn [snd] in *; try (now exists e1).
  destruct e; try (now exists e1).
  destruct (Hh s1) as (e2 & H2 & F2). exists (e1 ++ e2).
  rewrite H2, H1, app_assoc. split; [reflexivity|]. now apply Forall_app.
Qed.
End Emits.

Section EmitsCalls.
Context (P : event -> Prop).

Lemma emits_tick : emits P tick.
Proof.
  apply emits_silent. intros s.
  destruct (tick_spec s) as [[sg ->] | ->]; reflexivity.
Qed.

Lemma emits_modify (f : state -> state) :
  (forall s, trace (f s) = trace s) -> emits P (modify f).
Proof. intros H. now apply emits_silent. Qed.

Lemma emits_event (e : state -> event) (f : state -> state) :
  (forall s, P (e s)) -> (forall s, trace (f s) = trace s) ->
  emits P (modify (fun s => emit (e s) (f s))).
Proof.
  intros He Hf s. exists [e s]. cbn. rewrite Hf. split; [reflexivity|].
  now constructor.
Qed.

Lemma emits_print (m : message) : P (EvPrint m) -> emits P (print m).
Proof. intros H. exact (emits_event (fun _ => EvPrint m) (fun s => s) (fun _ => H) (fun _ => eq_refl)). Qed.

Lemma emits_sleep : P EvSleep -> emits P sleep.
Proof. intros H. exact (emits_event (fun _ => EvSleep) (fun s => s) (fun _ => H) (fun _ => eq_refl)). Qed.

Lemma emits_pixels_fill (c : rgb) : P (EvFill c) -> emits P (pixels_fill c).
Proof.
  intros H. exact (emits_event (fun _ => EvFill c) _ (fun _ => H) (fun _ => eq_refl)).
Qed.

Lemma emits_pixels_set_brightness (b : float) :
  P (EvSetBrightness b) -> emits P (pixels_set_brightness b).
Proof.
  intros H.
  exact (emits_event (fun _ => EvSetBrightness b) _ (fun _ => H) (fun _ => eq_refl)).
Qed.

Lemma emits_pixels_show : (forall frame b, P (EvShow frame b)) -> emits P pixels_show.
Proof.
  intros H.
  exact (emits_event (fun s => EvShow (pixels s) (pixels_brightness s)) (fun s => s)
           (fun _ => H _ _) (fun _ => eq_refl)).
Qed.

Lemma emits_pixels_setitem (i : Z) (c : rgb) :
  (forall n, P (EvSetPixel n c)) -> emits P (pixels_setitem i c).
Proof.
  intros H. unfold pixels_setitem.
  apply emits_bind; [apply emits_gets|]. intros buffer.
  apply emits_bind; [apply emits_lift|]. intros n.
  exact (emits_event (fun _ => EvSetPixel n c) _ (fun _ => H n) (fun _ => eq_refl)).
Qed.

Lemma emits_SetMasterVolumeLevelScalar (x : float) :
  P (EvSinkSet x) -> emits P (SetMasterVolumeLevelScalar x).
Proof.
  intros H s. exists [EvSinkSet x]. unfold SetMasterVolumeLevelScalar.
  split; [|now constructor]. now destruct (sink_faults s) as [|[] rest].
Qed.

Lemma emits_open_audio_endpoint : P EvAudioProbe -> emits P open_audio_endpoint.
Proof.
  intros H. unfold open_audio_endpoint.
  apply emits_bind.
  - exact (emits_event (fun _ => EvAudioProbe) (fun s => s) (fun _ => H) (fun _ => eq_refl)).
  - intros _. apply emits_bind; [apply emits_gets|].
    intros []; [apply emits_ret | apply emits_raise].
Qed.

Lemma emits_in_background (m : M unit) : emits P m -> emits P (in_background m).
Proof.
  intros Hm s. unfold in_background.
  destruct (Hm (set_sigint None s)) as (evs & H & F).
  destruct (m (set_sigint None s)) as [r s1]. now exists evs.
Qed.
End EmitsCalls.

Ltac emits_rules :=
  repeat first
    [ apply emits_bind; [|intros ?]
    | apply emits_tick
    | apply emits_ret
    | apply emits_raise
    | apply emits_gets
    | apply emits_lift
    | apply emits_try_except_Exception
    | apply emits_try_except_KeyboardInterrupt
    | apply emits_in_background
    | apply emits_print
    | apply emits_sleep
    | apply emits_pixels_fill
    | apply emits_pixels_set_brightness
    | apply emits_pixels_show; intros ? ?
    | apply emits_pixels_setitem; intros ?
    | apply emits_SetMasterVolumeLevelScalar
    | apply emits_open_audio_endpoint
    | apply emits_event; [intros ? | intros ?; reflexivity]
    | apply emits_modify; intros ?; reflexivity
    | match goal with
      | |- emits _ (if ?b then _ else _) => destruct b
      | |- emits _ (match ?x with _ => _ end) => destruct x
      end
    | exact I
    | assumption ].

Lemma emits_set_system_volume (vol : Z) : emits volume_call (set_system_volume vol).
Proof. unfold set_system_volume. emits_rules. Qed.

Lemma emits_update_brightness (d : Z) : emits brightness_call (update_brightness d).
Proof. unfold update_brightness. emits_rules. Qed.

Lemma emits_update_volume (d : Z) : emits volume_call (update_volume d).
Proof. unfold update_volume. emits_rules. Qed.

Lemma emits_toggle_led (i : Z) : emits led_call (toggle_led i).
Proof. unfold toggle_led. emits_rules. Qed.

Lemma emits_weaken {A} (P Q : event -> Prop) (m : M A) :
  (forall e, P e -> Q e) -> emits P m -> emits Q m.
Proof.
  intros HPQ Hm s. destruct (Hm s) as (evs & H & F). exists evs.
  split; [exact H|]. eapply Forall_impl; eauto.
Qed.

Lemma emits_setup_from (P : event -> Prop) (rest : list switch) (i : nat) :
  emits P (setup_from i rest).
Proof.
  revert i. induction rest as [|sw rest IH]; intros i; cbn [setup_from].
  - apply emits_ret.
  - emits_rules. apply IH.
Qed.

Lemma emits_boot_sequence : emits startup_call (init_audio ;; startup).
Proof.
  unfold init_audio, startup, setup_switch_handlers.
  emits_rules; apply emits_setup_from.
Qed.

(** ** An interrupt before the loop is entered *)

(** X8. The [try] of [main] covers the loop only.  When the interrupt is
    delivered earlier, while the audio endpoint is opened or during the
    statements of [main] that precede the loop, [KeyboardInterrupt] leaves
    the script: the process fails, the shutdown sequence does not run and
    neither of its two lines is printed. *)
Theorem interrupt_before_loop_escapes (acts : list activity)
    (device : bool) (faults : list bool) (sig : option nat) :
  let start := (init_audio ;; startup) (boot device faults sig) in
  let run := script acts (boot device faults sig) in
  fst start = Raise KeyboardInterrupt ->
  run = (Raise KeyboardInterrupt, snd start) /\
  exit_status (fst run) = ExitFailure /\
  ~ In (EvPrint MsgShuttingDown) (trace (snd run)) /\
  ~ In (EvPrint MsgGoodbye) (trace (snd run)).
Proof.
  cbv zeta. intros Hstart.
  assert (Hrun : script acts (boot device faults sig) =
                 (Raise KeyboardInterrupt,
                  snd ((init_audio ;; startup) (boot device faults sig)))).
  { unfold script, main, bind in *.
    destruct (init_audio (boot device faults sig)) as [[[]|e|] s1]; cbn in *;
      try congruence.
    destruct (startup s1) as [[lasts|e|] s2]; cbn in *; congruence. }
  rewrite Hrun. cbn [fst snd]. split; [reflexivity|]. split; [reflexivity|].
  destruct (emits_boot_sequence (boot device faults sig)) as (evs & -> & F).
  cbn [trace boot app].
  split; intros Hin; apply (proj1 (List.Forall_forall _ _) F) in Hin; exact Hin.
Qed.

Lemma interrupt_before_loop_escapes_witness :
  exit_status (fst (script [idle] (boot true [] (Some 12%nat)))) = ExitFailure.
Proof.
  apply (interrupt_before_loop_escapes [idle] true [] (Some 12%nat)).
  vm_compute. reflexivity.
Defined.

(** ** What the strip and the audio endpoint are asked to do *)

Lemma percent_scalars_in_unit :
  forallb (fun k => match Py.int_div_float (Z.of_nat k) 100 with
                    | inr x => (0 <=? x)%float && (x <=? 1)%float
                    | inl _ => false
                    end) (seq 0 101) = true.
Proof. vm_compute. reflexivity. Qed.

Lemma int_div_float_in_unit (v : Z) :
  0 <= v <= 100 ->
  exists x, Py.int_div_float v 100 = inr x /\ unit_interval x.
Proof.
  intros Hv.
  assert (Hin : In (Z.to_nat v) (seq 0 101)) by (apply in_seq; lia).
  pose proof (proj1 (forallb_forall _ _) percent_scalars_in_unit _ Hin) as H.
  cbv beta in H. rewrite Z2Nat.id in H by lia.
  destruct (Py.int_div_float v 100) as [e|x]; [discriminate|].
  exists x. split; [reflexivity|]. apply andb_true_iff in H. exact H.
Qed.

Lemma consistent_frame_ok (s : state) : consistent s -> frame_ok (pixels s).
Proof.
  intros Hc. split; [now apply consistent_pixels_length|].
  destruct Hc as [_ ->]. intros i p. apply render_palette.
Qed.

Lemma Forall_snoc {A} (P : A -> Prop) (l : list A) (x : A) :
  Forall P l -> P x -> Forall P (l ++ [x]).
Proof. intros Hl Hx. apply Forall_app. split; [exact Hl | now constructor]. Qed.

Lemma started_in_range (device : bool) (faults : list bool) :
  in_range (started device faults).
Proof.
  assert (Hhalf : unit_interval 0.5) by (split; vm_compute; reflexivity).
  split.
  - rewrite started_trace.
    assert (Hdark : frame_ok (replicate NUM_LEDS black)).
    { split; [reflexivity|]. intros i p [-> _]%lookup_replicate. now left. }
    assert (Hsink : event_in_range (EvSinkSet 0.5)).
    { split; [exact Hhalf|]. exists 50.
      split; [lia|]. split; vm_compute; reflexivity. }
    repeat (apply Forall_cons; split); cbn;
      try exact I; try reflexivity; try (split; assumption).
    destruct device; [|constructor].
    apply Forall_cons. split; [exact Hsink|].
    destruct faults as [|[] rest]; repeat constructor.
  - replace (pixels_brightness (started device faults)) with 0.5%float; [exact Hhalf|].
    destruct device, faults as [|[] rest]; vm_compute; reflexivity.
Qed.

Lemma sink_push_in_range (vol : Z) (s : state) :
  0 <= vol <= 100 -> Z.even vol = true ->
  in_range s -> in_range (sink_push vol s).
Proof.
  intros Hv He [Ht Hb].
  destruct (int_div_float_in_unit vol Hv) as (x & Hx & Hu).
  assert (Hev : event_in_range (EvSinkSet x)).
  { split; [exact Hu|]. now exists vol. }
  unfold sink_push. destruct (audio_available s); [|now split].
  rewrite Hx.
  destruct (sink_faults s) as [|[] rest]; split; cbn; try exact Hb;
    repeat apply Forall_snoc; auto; exact I.
Qed.

Theorem running_in_range (s : state) : running s -> in_range s.
Proof.
  induction 1 as [device faults sig lasts s H | sg s _ IH | s _ IH
                 | turned s _ IH | turned s _ IH | k s Hrun IH
                 | d s s' Hrun IH H | d s s' Hrun IH H].
  - destruct (started_spec _ _ _ _ _ H) as [Hs _].
    pose proof (started_in_range device faults) as Hr. rewrite <- Hs in Hr.
    exact Hr.
  - exact IH.
  - destruct IH as [Ht Hb]. split; [|exact Hb]. cbn. now apply Forall_snoc.
  - exact IH.
  - exact IH.
  - pose proof (running_invariant s Hrun) as [Hc Hw _ _ _ _ _ _].
    destruct IH as [Ht Hb].
    destruct (Nat.lt_ge_cases k NUM_LEDS) as [Hk|Hk].
    + destruct (consistent_lookup s k Hc Hk) as [on Hon].
      rewrite (press_wired k on s Hw Hk Hon (consistent_pixels_length s Hc)).
      cbn [snd].
      pose proof (toggled_consistent k on s Hk Hon Hc) as Hc'.
      apply consistent_frame_ok in Hc'.
      split; [|exact Hb]. cbn. repeat apply Forall_snoc; auto.
      * split; [exact Hk|]. destruct on; cbn; [now left|].
        right. now apply led_colors_lookup.
      * exact I.
      * split; [exact Hc' | exact Hb].
    + rewrite (press_unwired k s Hw Hk). now split.
  - pose proof (running_invariant s Hrun) as [Hc _ _ _ _ _ _ _].
    apply consistent_frame_ok in Hc. destruct IH as [Ht Hb].
    apply update_brightness_normal in H.
    rewrite update_brightness_quiet in H by reflexivity.
    destruct (brightness_after (brightness (quiet s)) d) as [e|new] eqn:E;
      [discriminate|].
    apply brightness_after_in_unit in E.
    destruct (Py.gt _ _).
    + cbv zeta in H. destruct (percent_of new); [discriminate|].
      apply (f_equal snd) in H. cbn [snd] in H.
      pose proof (f_equal trace H) as Ht'. pose proof (f_equal pixels_brightness H) as Hb'.
      cbn in Ht', Hb'. split.
      * rewrite <- Ht'. repeat apply Forall_snoc; auto; try exact I.
        split; [exact Hc | exact E].
      * now rewrite <- Hb'.
    + apply (f_equal snd) in H. cbn [snd] in H.
      pose proof (f_equal trace H) as Ht'. pose proof (f_equal pixels_brightness H) as Hb'.
      cbn in Ht', Hb'. split; [now rewrite <- Ht' | now rewrite <- Hb'].
  - pose proof (running_invariant s Hrun) as [_ _ _ He _ _ _ _].
    apply update_volume_normal in H.
    rewrite update_volume_quiet in H by reflexivity. cbv zeta in H.
    change (volume (quiet s)) with (volume s) in H.
    pose proof (volume_after_bounds (volume s) d) as Hv.
    pose proof (volume_after_even (volume s) d He) as He'.
    assert (Hin : in_range (set_volume (volume_after (volume s) d) (quiet s)))
      by exact IH.
    destruct (_ >? _).
    + apply (sink_push_in_range _ _ Hv He') in Hin. destruct Hin as [Ht Hb].
      apply (f_equal snd) in H. cbn [snd] in H.
      pose proof (f_equal trace H) as Ht'. pose proof (f_equal pixels_brightness H) as Hb'.
      cbn in Ht', Hb'. split.
      * rewrite <- Ht'. apply Forall_snoc; [exact Ht | exact I].
      * now rewrite <- Hb'.
    + apply (f_equal snd) in H. cbn [snd] in H.
      pose proof (f_equal trace H) as Ht'. pose proof (f_equal pixels_brightness H) as Hb'.
      cbn in Ht', Hb'. destruct Hin as [Ht Hb].
      split; [now rewrite <- Ht' | now rewrite <- Hb'].
Qed.

(** X9. While the loop runs, everything the strip has been asked is within
    what it accepts: its brightness scalar, and every value ever assigned
    to it, lies in [0.0, 1.0]; every frame committed has nine pixels, each
    black or of its LED's colour; every pixel written is one of the nine,
    written black or in its own colour; the strip was only ever filled
    with black. *)
Theorem strip_requests_in_range (s : state) :
  running s ->
  unit_interval (pixels_brightness s) /\
  (forall b, In (EvSetBrightness b) (trace s) -> unit_interval b) /\
  (forall frame b, In (EvShow frame b) (trace s) ->
     frame_ok frame /\ unit_interval b) /\
  (forall i c, In (EvSetPixel i c) (trace s) ->
     (i < NUM_LEDS)%nat /\ (c = black \/ led_colors !! i = Some c)) /\
  (forall c, In (EvFill c) (trace s) -> c = black).
Proof.
  intros Hrun. destruct (running_in_range s Hrun) as [Ht Hb].
  pose proof (proj1 (List.Forall_forall _ _) Ht) as H.
  split; [exact Hb|]. repeat split; intros; now apply (H _ ltac:(eassumption)).
Qed.

Lemma strip_requests_in_range_witness :
  unit_interval (pixels_brightness (snd (press 4 (started true [])))).
Proof.
  exact (proj1 (strip_requests_in_range (snd (press 4 (started true [])))
                  (running_press 4 _ (started_running true [])))).
Defined.

(** X10. While the loop runs, every scalar the audio endpoint has been
    given lies in [0.0, 1.0]: it is [v / 100.0] for an even volume [v]
    between 0 and 100. *)
Theorem sink_requests_in_range (s : state) (x : float) :
  running s ->
  In (EvSinkSet x) (trace s) ->
  unit_interval x /\
  exists v, 0 <= v <= 100 /\ Z.even v = true /\ Py.int_div_float v 100 = inr x.
Proof.
  intros Hrun Hin. destruct (running_in_range s Hrun) as [Ht _].
  exact (proj1 (List.Forall_forall _ _) Ht _ Hin).
Qed.

Lemma sink_requests_in_range_witness : unit_interval 0.5.
Proof.
  apply (sink_requests_in_range (started true []) 0.5).
  - apply started_running.
  - rewrite started_trace. cbn. auto 20.
Defined.

(** ** setup_switch_handlers on any list of switches *)

Lemma setup_from_quiet (rest done : list switch) (s : state) :
  sigint s = None ->
  switches s = done ++ rest ->
  setup_from (length done) rest s =
    (Ok tt,
     set_switches
       (done ++ imap (fun k sw => mkSwitch (pin sw)
                        (Some (ToggleLambda (Z.of_nat (length done + k))))) rest) s).
Proof.
  revert done s. induction rest as [|sw rest IH]; intros done s Hq Hsw;
    cbn [setup_from].
  - cbn. rewrite <- Hsw. now destruct s.
  - rewrite (bind_ok _ _ _ _ _ (tick_quiet s Hq)).
    rewrite (bind_ok (modify _) _ s _ tt eq_refl).
    cbv beta. rewrite Hsw.
    rewrite alter_app_r_alt by lia. rewrite Nat.sub_diag. cbn [alter list_alter pin].
    set (sw' := mkSwitch (pin sw) (Some (ToggleLambda (Z.of_nat (length done))))).
    replace (S (length done)) with (length (done ++ [sw']))
      by (rewrite length_app; cbn; lia).
    rewrite IH; [| exact Hq | cbn; now rewrite <- app_assoc].
    match goal with
    | |- (_, set_switches ?A (set_switches ?C s)) = _ =>
        change (set_switches A (set_switches C s)) with (set_switches A s)
    end.
    do 2 f_equal. rewrite <- app_assoc, imap_cons. cbn [app]. f_equal.
    f_equal; [unfold sw'; now rewrite Nat.add_0_r|].
    apply imap_ext. intros k x _. cbn.
    rewrite length_app. cbn. do 4 f_equal. lia.
Qed.

Lemma rewired_idem (sws : list switch) : rewired (rewired sws) = rewired sws.
Proof.
  apply list_eq. intros k. unfold rewired. rewrite !list_lookup_imap.
  now destruct (sws !! k).
Qed.

(** X11. Whatever switches there are and whatever callbacks they had,
    [setup_switch_handlers], when not interrupted, gives the switch at
    position [k] the callback that toggles LED [k], keeps its pin and
    touches nothing else; running it a second time changes nothing. *)
Theorem setup_switch_handlers_any (s : state) :
  sigint s = None ->
  setup_switch_handlers s = (Ok tt, set_switches (rewired (switches s)) s) /\
  (setup_switch_handlers ;; setup_switch_handlers) s =
    (Ok tt, set_switches (rewired (switches s)) s) /\
  length (rewired (switches s)) = length (switches s) /\
  forall k sw, switches s !! k = Some sw ->
    rewired (switches s) !! k =
      Some (mkSwitch (pin sw) (Some (ToggleLambda (Z.of_nat k)))).
Proof.
  intros Hq.
  assert (Hany : forall s0, sigint s0 = None ->
            setup_switch_handlers s0 = (Ok tt, set_switches (rewired (switches s0)) s0)).
  { intros s0 Hq0. unfold setup_switch_handlers.
    rewrite (bind_ok (gets switches) _ s0 s0 (switches s0) eq_refl).
    exact (setup_from_quiet (switches s0) [] s0 Hq0 eq_refl). }
  split; [now apply Hany|]. split; [|split].
  - rewrite (bind_ok _ _ _ _ _ (Hany s Hq)). rewrite Hany by exact Hq.
    change (switches (set_switches (rewired (switches s)) s))
      with (rewired (switches s)).
    rewrite rewired_idem. reflexivity.
  - unfold rewired. apply length_imap.
  - intros k sw Hk. unfold rewired. now rewrite list_lookup_imap, Hk.
Qed.

Lemma setup_switch_handlers_any_witness :
  setup_switch_handlers (started true []) =
    (Ok tt, set_switches (rewired (switches (started true []))) (started true [])).
Proof. exact (proj1 (setup_switch_handlers_any (started true []) eq_refl)). Defined.

(** ** Sequences of Pressed edges *)

Lemma press_led_states (k : nat) (s : state) :
  invariant s -> led_states (snd (press k s)) = alter negb k (led_states s).
Proof.
  intros [Hc Hw _ _ _ _ _ _].
  destruct (Nat.lt_ge_cases k NUM_LEDS) as [Hk|Hk].
  - destruct (consistent_lookup s k Hc Hk) as [on Hon].
    rewrite (press_wired k on s Hw Hk Hon (consistent_pixels_length s Hc)).
    cbn. apply list_eq. intros j. destruct (decide (k = j)) as [<-|Hne].
    + rewrite list_lookup_alter_eq, Hon. cbn.
      apply list_lookup_insert_eq. now apply lookup_lt_Some in Hon.
    + now rewrite list_lookup_alter_ne, list_lookup_insert_ne.
  - rewrite (press_unwired k s Hw Hk). cbn.
    apply list_eq. intros j. destruct (decide (k = j)) as [<-|Hne].
    + rewrite list_lookup_alter_eq.
      destruct Hc as [Hlen _]. rewrite (proj2 (lookup_ge_None _ _)); [reflexivity|lia].
    + now rewrite list_lookup_alter_ne.
Qed.

Lemma press_all_cons (k : nat) (ks : list nat) (s : state) :
  press_all (k :: ks) s = press_all ks (snd (press k s)).
Proof.
  cbn [press_all]. unfold bind. pose proof (press_ok k s) as H.
  destruct (press k s) as [r s1]. cbn in *. now subst r.
Qed.

Lemma press_all_running (ks : list nat) (s : state) :
  running s -> running (snd (press_all ks s)).
Proof. intros H. exact (proj2 (press_all_post ks s H)). Qed.

Lemma presses_lookup (ks : list nat) (j : nat) (s : state) :
  running s ->
  led_states (snd (press_all ks s)) !! j =
    xorb (Nat.odd (count_occ Nat.eq_dec ks j)) <$> led_states s !! j.
Proof.
  revert s. induction ks as [|k ks IH]; intros s Hrun.
  - cbn. now destruct (led_states s !! j) as [[]|].
  - rewrite press_all_cons, IH by now apply running_press.
    rewrite press_led_states by now apply running_invariant.
    destruct (Nat.eq_dec k j) as [->|Hne].
    + rewrite count_occ_cons_eq by reflexivity.
      rewrite list_lookup_alter_eq, Nat.odd_succ, <- Nat.negb_odd.
      destruct (led_states s !! j) as [b|]; [|reflexivity]. cbn.
      f_equal. now destruct (Nat.odd _), b.
    + rewrite count_occ_cons_neq by exact Hne.
      now rewrite list_lookup_alter_ne.
Qed.

(** X12. While the loop runs, after any sequence of Pressed edges LED [j]
    is inverted exactly when switch [j] was pressed an odd number of
    times, and its pixel shows its colour or black accordingly. *)
Theorem presses_parity (ks : list nat) (j : nat) (s : state) :
  running s -> (j < NUM_LEDS)%nat ->
  let s' := snd (press_all ks s) in
  let odd := Nat.odd (count_occ Nat.eq_dec ks j) in
  exists (on : bool) (c : rgb),
    led_states s !! j = Some on /\ led_colors !! j = Some c /\
    led_states s' !! j = Some (xorb odd on) /\
    pixels s' !! j = Some (if xorb odd on then c else black).
Proof.
  intros Hrun Hj. cbv zeta.
  destruct (running_invariant s Hrun) as [Hc _ _ _ _ _ _ _].
  destruct (consistent_lookup s j Hc Hj) as [on Hon].
  exists on, (default black (led_colors !! j)).
  split; [exact Hon|]. split; [now apply led_colors_lookup|].
  pose proof (presses_lookup ks j s Hrun) as Hl. rewrite Hon in Hl. cbn in Hl.
  split; [exact Hl|].
  destruct (running_invariant _ (press_all_running ks s Hrun)) as [[_ ->] _ _ _ _ _ _ _].
  now apply render_lookup.
Qed.

Lemma presses_parity_witness :
  exists (on : bool) (c : rgb),
    led_states (started true []) !! 3%nat = Some on /\
    led_colors !! 3%nat = Some c /\
    led_states (snd (press_all [3; 1; 3; 3]%nat (started true []))) !! 3%nat
      = Some (xorb true on) /\
    pixels (snd (press_all [3; 1; 3; 3]%nat (started true []))) !! 3%nat
      = Some (if xorb true on then c else black).
Proof.
  apply (presses_parity [3; 1; 3; 3]%nat 3 (started true [])).
  - apply started_running.
  - unfold NUM_LEDS. lia.
Defined.

(** X13. While the loop runs, the order in which switches are pressed
    does not matter: two sequences of Pressed edges that are permutations
    of each other leave the same LEDs on and the same pixel buffer. *)
Theorem presses_order_irrelevant (ks ks' : list nat) (s : state) :
  running s -> Permutation ks ks' ->
  led_states (snd (press_all ks s)) = led_states (snd (press_all ks' s)) /\
  pixels (snd (press_all ks s)) = pixels (snd (press_all ks' s)).
Proof.
  intros Hrun Hp.
  assert (Hl : led_states (snd (press_all ks s)) = led_states (snd (press_all ks' s))).
  { apply list_eq. intros j. rewrite !presses_lookup by exact Hrun.
    now rewrite (proj1 (Permutation_count_occ Nat.eq_dec ks ks') Hp j). }
  split; [exact Hl|].
  destruct (running_invariant _ (press_all_running ks s Hrun)) as [[_ ->] _ _ _ _ _ _ _].
  destruct (running_invariant _ (press_all_running ks' s Hrun)) as [[_ ->] _ _ _ _ _ _ _].
  now rewrite Hl.
Qed.

Lemma presses_order_irrelevant_witness :
  pixels (snd (press_all [0; 5; 2]%nat (started true []))) =
  pixels (snd (press_all [2; 0; 5]%nat (started true []))).
Proof.
  apply (presses_order_irrelevant [0; 5; 2]%nat [2; 0; 5]%nat (started true [])).
  - apply started_running.
  - symmetry. exact (Permutation_cons_append [0%nat; 5%nat] 2%nat).
Defined.

(** ** Each handler keeps to its own *)

(** X14. The three handlers keep to their own variables and their own
    outside calls, whatever their argument, from whatever state, and
    however they end.  [update_brightness] only adds to the trace, and
    only brightness assignments, commits and its own log line, and
    changes no variable but [brightness] and the strip's brightness
    scalar; [update_volume] only adds calls to the audio endpoint, its
    own log line and the error line, and changes no variable but
    [volume]; [toggle_led] only adds pixel writes, commits and its two
    log lines, and changes no variable but [led_states] and the pixel
    buffer. *)
Theorem handlers_keep_to_their_own :
  (forall d s, let s' := snd (update_brightness d s) in
     (exists evs, trace s' = trace s ++ evs /\ Forall brightness_call evs) /\
     but_brightness s' = but_brightness s) /\
  (forall d s, let s' := snd (update_volume d s) in
     (exists evs, trace s' = trace s ++ evs /\ Forall volume_call evs) /\
     but_volume s' = but_volume s) /\
  (forall i s, let s' := snd (toggle_led i s) in
     (exists evs, trace s' = trace s ++ evs /\ Forall led_call evs) /\
     but_leds s' = but_leds s).
Proof.
  split; [|split].
  - intros d s. split; [apply emits_update_brightness|].
    exact (update_brightness_untouched d s).
  - intros d s. split; [apply emits_update_volume|].
    exact (proj1 (update_volume_untouched d s)).
  - intros i s. split; [apply emits_toggle_led|].
    exact (toggle_led_untouched i s).
Qed.

(** ** Toggling twice, from any state *)

(** X15. From any state with nine pixels, the shut-down one included, two
    uninterrupted calls of [toggle_led(k)] both return, give back the
    on/off state of every LED, and leave pixel [k] showing the state of
    LED [k], its colour when on and black when off, whatever it showed
    before; no other pixel is written. *)
Theorem toggle_twice_anywhere (k : nat) (on : bool) (s : state) :
  sigint s = None ->
  (k < NUM_LEDS)%nat ->
  led_states s !! k = Some on ->
  length (pixels s) = NUM_LEDS ->
  exists s1 s2 c,
    toggle_led (Z.of_nat k) s = (Ok tt, s1) /\
    toggle_led (Z.of_nat k) s1 = (Ok tt, s2) /\
    led_states s2 = led_states s /\
    led_colors !! k = Some c /\
    pixels s2 = <[k:=if on then c else black]> (pixels s).
Proof.
  intros Hq Hk Hon Hpx.
  pose proof (lookup_lt_Some _ _ _ Hon) as Hlt.
  exists (toggled k on s), (toggled k (negb on) (toggled k on s)),
         (default black (led_colors !! k)).
  split; [now apply toggle_led_quiet|]. split.
  - apply toggle_led_quiet; cbn; auto.
    + now apply list_lookup_insert_eq.
    + now rewrite length_insert.
  - cbn. rewrite !list_insert_insert_eq, negb_involutive.
    split; [now apply list_insert_id|]. split; [now apply led_colors_lookup|].
    reflexivity.
Qed.

Lemma toggle_twice_anywhere_witness :
  let s := snd (script [mkActivity 0 0 [0%nat]] (boot true [] (Some 28%nat))) in
  exists s1 s2 c,
    toggle_led 0 s = (Ok tt, s1) /\
    toggle_led 0 s1 = (Ok tt, s2) /\
    led_states s2 = led_states s /\
    led_colors !! 0%nat = Some c /\
    pixels s2 = <[0%nat:=c]> (pixels s).
Proof.
  intros s.
  apply (toggle_twice_anywhere 0 true s); first [reflexivity | unfold NUM_LEDS; lia].
Defined.
